(** * Vitya2D: shape navigation with A* and full-body obstacle avoidance

    A shallow embedding of [Vitya2D.py]: the three shape factories, the
    module-level globals, [a_star] with its nested helpers [is_blocked] and
    [is_valid_position], [update_positions], [switch_shape] and the planning
    branch of [on_click].  Rendering (matplotlib) is left out. *)

From Stdlib Require Import ZArith Bool List Lia Wellfounded Relations.
From Stdlib Require Import Floats.SpecFloat.
From stdpp Require Import base option list gmap sets.

Open Scope Z_scope.

(** ** Python and numpy numbers *)

(** [np.float64] is IEEE 754 binary64.  The standard library's [spec_float]
    with precision 53 and maximal exponent 1024 gives its operations as plain
    functions. *)
Module F64.

Definition prec : Z := 53.
Definition emax : Z := 1024.

Definition float : Type := spec_float.

(** The float [m * 2^e], rounded to nearest. *)
Definition dyadic (m e : Z) : float := binary_normalize prec emax m e false.

(** [float(z)] for a Python int. *)
Definition of_Z (z : Z) : float := dyadic z 0.

Definition add : float -> float -> float := SFadd prec emax.
Definition sub : float -> float -> float := SFsub prec emax.
Definition sqrt : float -> float := SFsqrt prec emax.
Definition ltb : float -> float -> bool := SFltb.
Definition eqb : float -> float -> bool := SFeqb.

(** [np.hypot(x, y)] on two ints is the [hypot] of the C library.  For
    ints up to 80 in absolute value the library gives the square root of the
    sum of the squares, correctly rounded (the sum is exact there), but at
    the pairs of [libm_hypot], where it gives a neighbour of that float. *)
Definition libm_hypot (big small : Z) : option float :=
  match (big, small) with
  | (27, 17) => Some (S754_finite false 8980772207306068 (-48))
  | (45, 43) => Some (S754_finite false 8759707494834803 (-47))
  | (47, 28) => Some (S754_finite false 7699511192361388 (-47))
  | (54, 34) => Some (S754_finite false 8980772207306068 (-47))
  | (62, 61) => Some (S754_finite false 6120462857396948 (-46))
  | (72, 57) => Some (S754_finite false 6462057985284135 (-46))
  | (75, 72) => Some (S754_finite false 7315980832297382 (-46))
  | (77, 76) => Some (S754_finite false 7613169684129043 (-46))
  | (79, 79) => Some (S754_finite false 7861798158274000 (-46))
  | _ => None
  end.

Definition hypot (x y : Z) : float :=
  match libm_hypot (Z.max (Z.abs x) (Z.abs y)) (Z.min (Z.abs x) (Z.abs y)) with
  | Some r => r
  | None => sqrt (of_Z (x * x + y * y))
  end.

(** [m * 2^e] to the nearest integer, a tie going to the even one, for
    [0 <= m]. *)
Definition nearest_even (m e : Z) : Z :=
  match e with
  | Zneg p =>
      let d := Z.pow_pos 2 p in
      let q := m / d in
      let r := m mod d in
      match 2 * r ?= d with
      | Lt => q
      | Gt => q + 1
      | Eq => if Z.even q then q else q + 1
      end
  | _ => m * 2 ^ e
  end.

(** [m * 2^e] with its fraction dropped, for [0 <= m]. *)
Definition toward_zero (m e : Z) : Z :=
  match e with
  | Zneg p => m / Z.pow_pos 2 p
  | _ => m * 2 ^ e
  end.

(** [int(round(x))]: Python rounds a half to the even neighbour; on an
    infinity or a NaN it raises, which is [None] here. *)
Definition py_round (x : float) : option Z :=
  match x with
  | S754_zero _ => Some 0
  | S754_finite s m e => Some (cond_Zopp s (nearest_even (Zpos m) e))
  | S754_infinity _ | S754_nan => None
  end.

(** [int(x)]: truncation toward zero, raising on an infinity or a NaN. *)
Definition py_int (x : float) : option Z :=
  match x with
  | S754_zero _ => Some 0
  | S754_finite s m e => Some (cond_Zopp s (toward_zero (Zpos m) e))
  | S754_infinity _ | S754_nan => None
  end.

End F64.

Abbreviation float := F64.float.

(** ** Data *)

(** The values of [current_shape_type]. *)
Inductive shape_type : Type := dog | snake | line.

(** The keys of [obstacle_types]. *)
Inductive obstacle_type : Type := HighWall | TunnelWall | LowWall.

#[global] Instance shape_type_eq_dec : EqDecision shape_type.
Proof. solve_decision. Defined.

#[global] Instance obstacle_type_eq_dec : EqDecision obstacle_type.
Proof. solve_decision. Defined.

(** A grid cell [(x, y)], a tuple of two ints. *)
Definition cell : Type := Z * Z.

(** A two-element [np.array] of floats. *)
Definition point : Type := float * float.

Definition np_array (c : cell) : point := (F64.of_Z c.1, F64.of_Z c.2).
Definition np_add (a b : point) : point := (F64.add a.1 b.1, F64.add a.2 b.2).
Definition np_sub (a b : point) : point := (F64.sub a.1 b.1, F64.sub a.2 b.2).

(** A dict keyed by anchor id, in insertion order. *)
Definition anchors : Type := list (Z * point).

Fixpoint dict_get {A : Type} (k : Z) (d : list (Z * A)) : option A :=
  match d with
  | [] => None
  | (k', v) :: d' => if decide (k = k') then Some v else dict_get k d'
  end.

Record shape : Type := Shape {
  shape_positions : anchors;
  shape_connections : list (Z * Z);
  shape_center : Z;
  shape_kind : shape_type
}.

(** ** [is_blocked], the blocking rule nested in [a_star] *)

Definition is_blocked (obstacles : gmap cell obstacle_type)
    (current_shape_type : shape_type) (c : cell) : bool :=
  let otype := obstacles !! c in
  if decide (current_shape_type = line) then bool_decide (otype ≠ None)
  else if decide (otype = Some HighWall) then true
  else if decide (current_shape_type = dog ∧ otype = Some TunnelWall) then true
  else if decide (current_shape_type = snake ∧ otype = Some LowWall) then true
  else false.

(** ** The shape factories *)

(** A coordinate written as a Python int, and one written in halves
    ([-0.5] is [half (-1)], [2.5] is [half 5]). *)
Definition int (z : Z) : float := F64.of_Z z.
Definition half (z : Z) : float := F64.dyadic z (-1).

Definition get_dog_shape : shape :=
  {| shape_positions :=
       [ (1, (int 0, int 2)); (2, (int 0, int 1)); (3, (int 0, int 0));
         (4, (int 1, int 1)); (5, (int 2, int 2)); (6, (int 2, int 1));
         (7, (int 2, int 0));
         (8, (half (-1), int 2)); (9, (half (-1), int 0));
         (10, (half 5, int 2)); (11, (half 5, int 0)) ];
     shape_connections :=
       [ (1, 2); (2, 3); (2, 4); (4, 6); (5, 6); (6, 7);
         (1, 8); (3, 9); (5, 10); (7, 11) ];
     shape_center := 4;
     shape_kind := dog |}.

(** [np.sin(i * 0.5)] for [i] in [range(12)], as binary64 values. *)
Definition np_sin_half (i : Z) : float :=
  match i with
  | 1 => F64.dyadic 8636562708039152 (-54)
  | 2 => F64.dyadic 7579296827247854 (-53)
  | 3 => F64.dyadic 8984636099947915 (-53)
  | 4 => F64.dyadic 8190223105242182 (-53)
  | 5 => F64.dyadic 5390557850356401 (-53)
  | 6 => F64.dyadic 5084384125703515 (-55)
  | 7 => F64.dyadic (-6319148854043167) (-54)
  | 8 => F64.dyadic (-6816670871723694) (-53)
  | 9 => F64.dyadic (-8804808547319936) (-53)
  | 10 => F64.dyadic (-8637222012098867) (-53)
  | 11 => F64.dyadic (-6354942294667351) (-53)
  | _ => F64.dyadic 0 0
  end.

(** [range(a, b)]. *)
Definition py_range (a b : Z) : list Z :=
  map (fun i => a + Z.of_nat i) (seq 0 (Z.to_nat (b - a))).

Definition get_snake_shape : shape :=
  {| shape_positions :=
       map (fun i => (i + 1, (int i, F64.add (int 5) (np_sin_half i))))
           (py_range 0 12);
     shape_connections := map (fun i => (i, i + 1)) (py_range 1 12);
     shape_center := 12;
     shape_kind := snake |}.

Definition get_line_shape : shape :=
  {| shape_positions := map (fun i => (i + 1, (int i, int 5))) (py_range 0 12);
     shape_connections := map (fun i => (i, i + 1)) (py_range 1 12);
     shape_center := 12;
     shape_kind := line |}.

(** ** The globals *)

Record world : Type := World {
  current_obstacle_type : obstacle_type;
  current_shape_type : shape_type;
  initial_positions : anchors;
  connections : list (Z * Z);
  center_id : Z;
  positions : anchors;
  grid_size : cell;
  obstacles : gmap cell obstacle_type;
  path : list point;
  step_index : nat;
  safety_margin : Z;
  expanded_obstacles : gset cell
}.

(** The globals as the module leaves them once it is loaded. *)
Definition initial_world : world :=
  {| current_obstacle_type := HighWall;
     current_shape_type := dog;
     initial_positions := shape_positions get_dog_shape;
     connections := shape_connections get_dog_shape;
     center_id := shape_center get_dog_shape;
     positions := shape_positions get_dog_shape;
     grid_size := (40, 40);
     obstacles := ∅;
     path := [];
     step_index := 0%nat;
     safety_margin := 1;
     expanded_obstacles := ∅ |}.

(** ** [switch_shape] *)

Definition switch_shape (new_shape : shape) (w : world) : world :=
  {| current_obstacle_type := current_obstacle_type w;
     current_shape_type := shape_kind new_shape;
     initial_positions := shape_positions new_shape;
     connections := shape_connections new_shape;
     center_id := shape_center new_shape;
     positions := shape_positions new_shape;
     grid_size := grid_size w;
     obstacles := obstacles w;
     path := path w;
     step_index := step_index w;
     safety_margin := safety_margin w;
     expanded_obstacles := expanded_obstacles w |}.

(** ** [update_positions] *)

(** The loop [for k in positions: positions[k] = next_pos + offset], where
    [offset] is [initial_positions[k] - initial_positions[center_id]].  A
    missing key raises [KeyError], which is [None]. *)
Fixpoint move_anchors (initial_positions : anchors) (center_id : Z)
    (next_pos : point) (ps : anchors) : option anchors :=
  match ps with
  | [] => Some []
  | (k, _) :: ps' =>
      pk ← dict_get k initial_positions;
      pc ← dict_get center_id initial_positions;
      rest ← move_anchors initial_positions center_id next_pos ps';
      Some ((k, np_add next_pos (np_sub pk pc)) :: rest)
  end.

(** The cells [(cx + dx, cy + dy)] in the order the two nested [range]
    loops visit them. *)
Definition box (margin : Z) (c : cell) : list cell :=
  dx ← py_range (- margin) (margin + 1);
  dy ← py_range (- margin) (margin + 1);
  [(c.1 + dx, c.2 + dy)].

(** The two nested loops over the box, with their early [return]. *)
Fixpoint scan (w : world) (cells : list cell) : world :=
  match cells with
  | [] => w
  | n :: rest =>
      match obstacles w !! n with
      | Some otype =>
          if decide (otype = TunnelWall ∧ current_shape_type w ≠ snake)
          then switch_shape get_snake_shape w
          else if decide (otype = LowWall ∧ current_shape_type w ≠ dog)
          then switch_shape get_dog_shape w
          else scan w rest
      | None => scan w rest
      end
  end.

Definition set_motion (w : world) (ps : anchors) (i : nat) : world :=
  {| current_obstacle_type := current_obstacle_type w;
     current_shape_type := current_shape_type w;
     initial_positions := initial_positions w;
     connections := connections w;
     center_id := center_id w;
     positions := ps;
     grid_size := grid_size w;
     obstacles := obstacles w;
     path := path w;
     step_index := i;
     safety_margin := safety_margin w;
     expanded_obstacles := expanded_obstacles w |}.

(** The first half of [update_positions]: the rigid move to
    [path[step_index]]. *)
Definition advance (w : world) (next_pos : point) : option world :=
  _ ← dict_get (center_id w) (positions w);
  ps ← move_anchors (initial_positions w) (center_id w) next_pos (positions w);
  Some (set_motion w ps (S (step_index w))).

(** [cx, cy = map(int, positions[center_id])]. *)
Definition center_cell (w : world) : option cell :=
  c ← dict_get (center_id w) (positions w);
  cx ← F64.py_int c.1;
  cy ← F64.py_int c.2;
  Some (cx, cy).

Definition update_positions (w : world) : option world :=
  match path w !! step_index w with
  | None => Some w
  | Some next_pos =>
      w1 ← advance w next_pos;
      c ← center_cell w1;
      Some (scan w1 (box (safety_margin w1) c))
  end.

(** ** [a_star] *)

(** The arithmetic of path costs and priorities: the int [0], [+], [<] and
    [==] on floats, and [np.hypot] on two ints.  The search is written over
    these operations; [f64_cost] below is the arithmetic of the program. *)
Class CostOps (cost : Type) : Type := {
  zero : cost;
  plus : cost -> cost -> cost;
  less : cost -> cost -> bool;
  same : cost -> cost -> bool;
  np_hypot : Z -> Z -> cost
}.

#[global] Instance f64_cost : CostOps float :=
  {| zero := F64.of_Z 0;
     plus := F64.add;
     less := F64.ltb;
     same := F64.eqb;
     np_hypot := F64.hypot |}.

(** What a call does: it returns, it raises, or the model's fuel ran out
    before it did either. *)
Inductive result (A : Type) : Type :=
  | Ok (a : A)
  | Raised
  | OutOfFuel.
Arguments Ok {A} a.
Arguments Raised {A}.
Arguments OutOfFuel {A}.

Definition directions : list (Z * Z) :=
  [(-1, 0); (1, 0); (0, -1); (0, 1); (-1, -1); (-1, 1); (1, -1); (1, 1)].

(** [0 <= c[0] < grid_size[0] and 0 <= c[1] < grid_size[1]]. *)
Definition in_bounds (grid_size c : cell) : bool :=
  bool_decide (0 ≤ c.1 < grid_size.1 ∧ 0 ≤ c.2 < grid_size.2).

(** The inner loops of the inflation: the box around one obstacle cell,
    clipped to the grid, added to the set. *)
Definition inflate_cell (margin : Z) (grid_size o : cell)
    (expanded : gset cell) : gset cell :=
  foldl (fun acc n => if in_bounds grid_size n then {[n]} ∪ acc else acc)
        expanded (box margin o).

(** [expanded_obstacles.clear()] and the loop [for ox, oy in obstacles]. *)
Definition inflate (expanded_obstacles : gset cell)
    (obstacles : gmap cell obstacle_type) (current_shape_type : shape_type)
    (margin : Z) (grid_size : cell) : gset cell :=
  let cleared : gset cell := ∅ in
  foldl (fun acc o =>
           if is_blocked obstacles current_shape_type o
           then inflate_cell margin grid_size o acc
           else acc)
        cleared (map_to_list obstacles).*1.

(** The dict comprehension [relative_offsets]. *)
Fixpoint offsets_of (initial_positions : anchors) (center_id : Z)
    (keys : anchors) : option anchors :=
  match keys with
  | [] => Some []
  | (k, _) :: keys' =>
      pk ← dict_get k initial_positions;
      pc ← dict_get center_id initial_positions;
      rest ← offsets_of initial_positions center_id keys';
      Some ((k, np_sub pk pc) :: rest)
  end.

Definition relative_offsets (initial_positions : anchors) (center_id : Z)
    : option anchors :=
  offsets_of initial_positions center_id initial_positions.

(** [is_valid_position], the loop over [relative_offsets.values()]. *)
Fixpoint is_valid_position (grid_size : cell) (expanded : gset cell)
    (offsets : list point) (center : point) : option bool :=
  match offsets with
  | [] => Some true
  | offset :: rest =>
      let dot_pos := np_add center offset in
      cx ← F64.py_round dot_pos.1;
      cy ← F64.py_round dot_pos.2;
      if negb (in_bounds grid_size (cx, cy)) then Some false
      else if bool_decide ((cx, cy) ∈ expanded) then Some false
      else is_valid_position grid_size expanded rest center
  end.

Section Search.

Context {cost : Type} `{CostOps cost}.

(** An element of [frontier], a tuple [(priority, cell)]. *)
Definition entry : Type := cost * cell.

(** [<] on tuples of two ints. *)
Definition cell_ltb (a b : cell) : bool :=
  if decide (a.1 = b.1) then bool_decide (a.2 < b.2)
  else bool_decide (a.1 < b.1).

(** [<] on the frontier's tuples: the first components decide unless
    they are [==]. *)
Definition entry_ltb (a b : entry) : bool :=
  if same a.1 b.1 then cell_ltb a.2 b.2 else less a.1 b.1.

(** [heapq] keeps a least tuple in front; the heap is a list here and
    [heappop] takes a least tuple out of it. *)
Definition heappush (h : list entry) (x : entry) : list entry := x :: h.

Fixpoint heappop (h : list entry) : option (entry * list entry) :=
  match h with
  | [] => None
  | x :: h' =>
      match heappop h' with
      | None => Some (x, [])
      | Some (y, r) =>
          if entry_ltb y x then Some (y, x :: r) else Some (x, h')
      end
  end.

(** The three locals of the search. *)
Record search : Type := Search {
  frontier : list entry;
  came_from : gmap cell (option cell);
  cost_so_far : gmap cell cost
}.

Variables (grid_size : cell) (expanded : gset cell) (offsets : list point).
Variable goal : cell.

Definition heuristic (a b : cell) : cost := np_hypot (a.1 - b.1) (a.2 - b.2).

(** The loop [for dx, dy in directions] around [current]. *)
Fixpoint expand (current : cell) (dirs : list (Z * Z)) (s : search)
    : option search :=
  match dirs with
  | [] => Some s
  | (dx, dy) :: dirs' =>
      let neighbor : cell := (current.1 + dx, current.2 + dy) in
      if negb (in_bounds grid_size neighbor) then expand current dirs' s
      else
        valid ← is_valid_position grid_size expanded offsets
                   (np_array neighbor);
        if negb valid then expand current dirs' s
        else
          c ← cost_so_far s !! current;
          let new_cost := plus c (np_hypot dx dy) in
          let better :=
            match cost_so_far s !! neighbor with
            | None => true
            | Some old => less new_cost old
            end in
          if better then
            let priority := plus new_cost (heuristic goal neighbor) in
            expand current dirs'
              {| frontier := heappush (frontier s) (priority, neighbor);
                 came_from := <[neighbor := Some current]> (came_from s);
                 cost_so_far := <[neighbor := new_cost]> (cost_so_far s) |}
          else expand current dirs' s
  end.

(** The loop [while frontier]. *)
Fixpoint search_loop (fuel : nat) (s : search) : result search :=
  match heappop (frontier s) with
  | None => Ok s
  | Some ((_, current), rest) =>
      let s1 := {| frontier := rest;
                   came_from := came_from s;
                   cost_so_far := cost_so_far s |} in
      if decide (current = goal) then Ok s1
      else
        match fuel with
        | O => OutOfFuel
        | S fuel' =>
            match expand current directions s1 with
            | None => Raised
            | Some s2 => search_loop fuel' s2
            end
        end
  end.

(** The loop [while curr and curr in came_from], which appends to
    [path]. *)
Fixpoint walk_back (fuel : nat) (came_from : gmap cell (option cell))
    (curr : option cell) (path : list point) : result (list point) :=
  match curr with
  | None => Ok path
  | Some c =>
      match came_from !! c with
      | None => Ok path
      | Some prev =>
          match fuel with
          | O => OutOfFuel
          | S fuel' =>
              walk_back fuel' came_from prev (path ++ [np_array c])
          end
      end
  end.

End Search.

Section Planner.

Context {cost : Type} `{CostOps cost}.

(** [a_star(start, goal, obstacles, grid_size)] run in the globals [w]:
    the new value of the global [expanded_obstacles], and what the call
    does. *)
Definition a_star (fuel : nat) (w : world) (start goal : cell)
    (obstacles : gmap cell obstacle_type) (grid_size : cell)
    : gset cell * result (list point) :=
  let expanded :=
    inflate (expanded_obstacles w) obstacles (current_shape_type w)
            (safety_margin w) grid_size in
  (expanded,
   match relative_offsets (initial_positions w) (center_id w) with
   | None => Raised
   | Some offsets =>
       let s0 := {| frontier := [(zero, start)];
                    came_from := {[start := None]};
                    cost_so_far := {[start := zero]} |} in
       match search_loop grid_size expanded offsets.*2 goal fuel s0 with
       | Ok s =>
           match walk_back fuel (came_from s) (Some goal) [] with
           | Ok path => Ok (rev path)
           | Raised => Raised
           | OutOfFuel => OutOfFuel
           end
       | Raised => Raised
       | OutOfFuel => OutOfFuel
       end
   end).

(** What [on_click] prints. *)
Inductive message : Type := No_valid_path_to (c : cell).

(** The branch [event.button == 3] of [on_click], for a click on
    [cell]. *)
Definition on_click_plan (fuel : nat) (w : world) (c : cell)
    : result (world * list message) :=
  match center_cell w with
  | None => Raised
  | Some start =>
      match a_star fuel w start c (obstacles w) (grid_size w) with
      | (expanded, Ok new_path) =>
          let set p i :=
            {| current_obstacle_type := current_obstacle_type w;
               current_shape_type := current_shape_type w;
               initial_positions := initial_positions w;
               connections := connections w;
               center_id := center_id w;
               positions := positions w;
               grid_size := grid_size w;
               obstacles := obstacles w;
               path := p;
               step_index := i;
               safety_margin := safety_margin w;
               expanded_obstacles := expanded |} in
          match new_path with
          | [] => Ok (set [] (step_index w), [No_valid_path_to c])
          | _ :: _ => Ok (set new_path 0%nat, [])
          end
      | (_, Raised) => Raised
      | (_, OutOfFuel) => OutOfFuel
      end
  end.

End Planner.

(** ** The switch policy, as the specification words it *)

(** The kind an obstacle class asks for: a tunnel wall asks for the snake,
    a low wall for the dog, a high wall for nothing. *)
Definition switch_policy (o : obstacle_type) : option shape_type :=
  match o with
  | TunnelWall => Some snake
  | LowWall => Some dog
  | HighWall => None
  end.

(** The factory of each kind. *)
Definition factory (k : shape_type) : shape :=
  match k with
  | dog => get_dog_shape
  | snake => get_snake_shape
  | line => get_line_shape
  end.

(** The kind that the obstacle at [n], if there is one, forces on the
    body: the one its class asks for, when the active kind is another. *)
Definition required_kind (w : world) (n : cell) : option shape_type :=
  o ← obstacles w !! n;
  k ← switch_policy o;
  if decide (k = current_shape_type w) then None else Some k.

(** ** Moves and reachability *)

(** The offsets seen from the center of the dog. *)
Definition dog_offsets : anchors :=
  default [] (relative_offsets (shape_positions get_dog_shape)
                               (shape_center get_dog_shape)).

(** [is_valid_position] accepts the cell [c] as the place of the center. *)
Definition valid_center (grid_size : cell) (expanded : gset cell)
    (offsets : list point) (c : cell) : Prop :=
  is_valid_position grid_size expanded offsets (np_array c) = Some true.

(** [b] is one of the eight neighbours of [a]. *)
Definition king_move (a b : cell) : Prop :=
  ∃ d, d ∈ directions ∧ b = (a.1 + d.1, a.2 + d.2).

(** A move the search makes: to a neighbour that is on the grid and that
    the full-body check accepts.  The cell it leaves is not looked at. *)
Definition admissible_move (grid_size : cell) (expanded : gset cell)
    (offsets : list point) (a b : cell) : Prop :=
  king_move a b ∧ in_bounds grid_size b = true
  ∧ valid_center grid_size expanded offsets b.

(** [c] can be reached from [start] by moves of the search. *)
Definition reachable (grid_size : cell) (expanded : gset cell)
    (offsets : list point) (start c : cell) : Prop :=
  rtc (admissible_move grid_size expanded offsets) start c.

(** A list of cells that leads from [start] to [goal] by moves of the
    search, both ends included. *)
Definition leads (grid_size : cell) (expanded : gset cell)
    (offsets : list point) (start goal : cell) (cells : list cell) : Prop :=
  head cells = Some start
  ∧ last cells = Some goal
  ∧ ∀ i a b, cells !! i = Some a → cells !! S i = Some b →
             admissible_move grid_size expanded offsets a b.

(** ** The length of a path *)

(** A move from [a] to [b]: [Some false] for a move along an axis, [Some
    true] for a diagonal one, [None] when [b] is no neighbour of [a]. *)
Definition step_kind (a b : cell) : option bool :=
  let dx := Z.abs (b.1 - a.1) in
  let dy := Z.abs (b.2 - a.2) in
  if decide (dx + dy = 1) then Some false
  else if decide (dx = 1 ∧ dy = 1) then Some true
  else None.

(** The moves of a list of cells: how many go along an axis and how many
    are diagonal.  The Euclidean-weighted length of the list is the first
    number plus the second times the square root of two; as that root is
    irrational, two lists have the same weighted length exactly when they
    have the same two numbers. *)
Fixpoint moves (cells : list cell) : option (nat * nat) :=
  match cells with
  | a :: (b :: _) as rest =>
      k ← step_kind a b;
      n ← moves rest;
      Some (if k : bool then (n.1, S n.2) else (S n.1, n.2))
  | _ => Some (0%nat, 0%nat)
  end.

(** The moves of a shortest path of a king from [s] to [g] on a free
    board: as many diagonal moves as the smaller of the two distances, the
    rest along an axis. *)
Definition king_distance (s g : cell) : nat * nat :=
  let dx := Z.abs (g.1 - s.1) in
  let dy := Z.abs (g.2 - s.2) in
  (Z.to_nat (Z.abs (dx - dy)), Z.to_nat (Z.min dx dy)).

(** The statement of the specification: on a grid without obstacles, for
    a start and a goal on the grid, the path that [a_star] returns has the
    weighted length of a shortest path of a king, and its cells follow each
    other by moves of a king. *)
Definition shortest_on_free_grid {cost : Type} `{CostOps cost} (w : world)
    : Prop :=
  ∀ (grid start goal : cell) (fuel : nat) (path : list point),
    in_bounds grid start = true → in_bounds grid goal = true →
    (a_star fuel w start goal ∅ grid).2 = Ok path →
    ∃ cells, path = map np_array cells
             ∧ moves cells = Some (king_distance start goal).

(** A run of the program's arithmetic from [start] to [goal] on the grid of
    six by six cells without obstacles returns the empty path or a path with
    the moves of a shortest path of a king. *)
Definition shortest_run (start goal : cell) (cells : list cell) : Prop :=
  (a_star (H := f64_cost) 100 initial_world start goal ∅ (6, 6)).2
  = Ok (map np_array cells)
  ∧ (cells = [] ∨ moves cells = Some (king_distance start goal)).

#[global] Instance float_eq_dec : EqDecision float.
Proof. solve_decision. Defined.

(** The cells of a list of points with integer coordinates. *)
Definition path_cells (path : list point) : option (list cell) :=
  mapM (fun p : point => x ← F64.py_int p.1; y ← F64.py_int p.2; Some (x, y))
       path.

(** [shortest_run], decided by running the search. *)
Definition shortest_check (start goal : cell) : bool :=
  match (a_star (H := f64_cost) 100 initial_world start goal ∅ (6, 6)).2 with
  | Ok path =>
      match path_cells path with
      | Some cells =>
          bool_decide (path = map np_array cells)
          && (bool_decide (cells = [])
              || bool_decide (moves cells = Some (king_distance start goal)))
      | None => false
      end
  | _ => false
  end.

(** ** Laws of the cost arithmetic *)

(** What the termination of the search rests on, stated of the costs that
    the search can meet ([sound]): zero is one of them and adding the cost
    of a step to one of them gives one of them; on them [<] has no infinite
    descending chain and orders any three costs consistently; and adding the
    cost of a step never lowers a cost.  Nothing asks that a cost grows when
    a step is added: a rounded sum may absorb the step. *)
Class CostLaws (cost : Type) `{CostOps cost} : Type := {
  sound : cost → Prop;
  sound_zero : sound zero;
  sound_step : ∀ (a : cost) (d : Z * Z),
      sound a → d ∈ directions → sound (plus a (np_hypot d.1 d.2));
  less_wf : well_founded (fun a b : cost =>
                            sound a ∧ sound b ∧ less a b = true);
  less_cotrans : ∀ a b c : cost,
      sound a → sound b → sound c →
      less a c = true → less a b = true ∨ less b c = true;
  step_weak : ∀ (a : cost) (d : Z * Z),
      sound a → d ∈ directions → less (plus a (np_hypot d.1 d.2)) a = false
}.

(** Costs in units of [2^-16], the square root rounded down: an arithmetic
    in which both laws hold. *)
#[global] Instance fixed_cost : CostOps N :=
  {| zero := 0%N;
     plus := N.add;
     less := N.ltb;
     same := N.eqb;
     np_hypot := fun x y => N.sqrt (Z.to_N ((x * x + y * y) * 2 ^ 32)) |}.

(** The cells of the grid. *)
Definition grid_cells (grid_size : cell) : list cell :=
  x ← py_range 0 grid_size.1;
  y ← py_range 0 grid_size.2;
  [(x, y)].

(** ** Scenes *)

(** The globals [w] with another obstacle field and another path, the
    cursor at its start. *)
Definition with_scene (w : world) (obs : gmap cell obstacle_type)
    (p : list point) : world :=
  {| current_obstacle_type := current_obstacle_type w;
     current_shape_type := current_shape_type w;
     initial_positions := initial_positions w;
     connections := connections w;
     center_id := center_id w;
     positions := positions w;
     grid_size := grid_size w;
     obstacles := obs;
     path := p;
     step_index := 0%nat;
     safety_margin := safety_margin w;
     expanded_obstacles := expanded_obstacles w |}.

(** The dog about to step to [(5, 5)], a tunnel wall at [(6, 5)] and a
    low wall at [(6, 6)]. *)
Definition tunnel_world : world :=
  with_scene initial_world {[ (6, 5) := TunnelWall; (6, 6) := LowWall ]}
             [np_array (5, 5)].

(** [tunnel_world] once the dog has moved, before the scan. *)
Definition tunnel_world_moved : world :=
  default tunnel_world (advance tunnel_world (np_array (5, 5))).

(** The globals once the host has asked for the snake. *)
Definition snake_world : world := switch_shape get_snake_shape initial_world.

(** A body of one anchor, its center, and the inflated set of a ten by
    ten grid with one high wall at [(5, 5)] and a margin of one cell. *)
Definition one_anchor : anchors := [(1, (int 0, int 0))].

Definition one_anchor_offsets : anchors :=
  default [] (relative_offsets one_anchor 1).

Definition one_wall_inflated : gset cell :=
  inflate ∅ {[ (5, 5) := HighWall ]} dog 1 (10, 10).

(** ** Numbers that are not an infinity or a NaN *)

Definition is_finite (x : float) : Prop :=
  match x with
  | S754_zero _ | S754_finite _ _ _ => True
  | S754_infinity _ | S754_nan => False
  end.

Definition finite_point (p : point) : Prop := is_finite p.1 ∧ is_finite p.2.

(** An int that binary64 holds exactly, and a cell of two such ints. *)
Definition exact_int (z : Z) : Prop := Z.abs z < 2 ^ 53.
Definition exact_cell (c : cell) : Prop := exact_int c.1 ∧ exact_int c.2.

(** [n] calls of [update_positions], as [animate] makes them frame after
    frame; [None] when one of them raises. *)
Fixpoint ticks (n : nat) (w : world) : option world :=
  match n with
  | O => Some w
  | S n' => w' ← update_positions w; ticks n' w'
  end.

(** ** The other handlers *)

(** [set_obstacle_type], the handler of the radio buttons. *)
Definition set_obstacle_type (label : obstacle_type) (w : world) : world :=
  {| current_obstacle_type := label;
     current_shape_type := current_shape_type w;
     initial_positions := initial_positions w;
     connections := connections w;
     center_id := center_id w;
     positions := positions w;
     grid_size := grid_size w;
     obstacles := obstacles w;
     path := path w;
     step_index := step_index w;
     safety_margin := safety_margin w;
     expanded_obstacles := expanded_obstacles w |}.

Definition set_obstacles (w : world) (obs : gmap cell obstacle_type)
    : world :=
  {| current_obstacle_type := current_obstacle_type w;
     current_shape_type := current_shape_type w;
     initial_positions := initial_positions w;
     connections := connections w;
     center_id := center_id w;
     positions := positions w;
     grid_size := grid_size w;
     obstacles := obs;
     path := path w;
     step_index := step_index w;
     safety_margin := safety_margin w;
     expanded_obstacles := expanded_obstacles w |}.

(** The obstacle branch of [on_click]:
    [if cell in obstacles: del obstacles[cell]] [else: obstacles[cell] =
    current_obstacle_type]. *)
Definition toggle_obstacle (c : cell) (w : world) : world :=
  match obstacles w !! c with
  | Some _ => set_obstacles w (delete c (obstacles w))
  | None => set_obstacles w (<[c := current_obstacle_type w]> (obstacles w))
  end.

(** What [on_click] reads of a mouse event: whether it fell in the axes,
    its data coordinates, its button, and whether shift was held. *)
Record mouse_event : Type := MouseEvent {
  inaxes : bool;
  xdata : float;
  ydata : float;
  button : Z;
  shift : bool
}.

Section Handlers.

Context {cost : Type} `{CostOps cost}.

(** [on_click]. *)
Definition on_click (fuel : nat) (event : mouse_event) (w : world)
    : result (world * list message) :=
  if negb (inaxes event) then Ok (w, [])
  else
    match F64.py_int (xdata event) with
    | None => Raised
    | Some gx =>
        match F64.py_int (ydata event) with
        | None => Raised
        | Some gy =>
            let c : cell := (gx, gy) in
            if decide (button event = 3) then on_click_plan fuel w c
            else if decide (button event = 2
                            ∨ (button event = 1 ∧ shift event = true))
            then Ok (toggle_obstacle c w, [])
            else Ok (w, [])
        end
    end.

End Handlers.

(** ** [draw_obstacles] *)

Inductive colour : Type := red | blue | yellow | pink | cyan | orange.

(** The dict [obstacle_types]. *)
Definition obstacle_types (o : obstacle_type) : colour :=
  match o with
  | HighWall => red
  | TunnelWall => blue
  | LowWall => yellow
  end.

(** The rectangles [draw_obstacles] adds: a filled one on an obstacle, a
    faint one on a cell of the margin, a dashed outline on top of it. *)
Inductive patch : Type :=
  | Filled (c : cell) (col : colour)
  | Faint (c : cell) (col : colour)
  | Dashed (c : cell) (edge : colour).

(** The two loops that look for [nearest_type] around a cell of the
    margin: the first obstacle met stops both. *)
Fixpoint first_obstacle (obstacles : gmap cell obstacle_type)
    (cells : list cell) : option obstacle_type :=
  match cells with
  | [] => None
  | n :: rest =>
      match obstacles !! n with
      | Some otype => Some otype
      | None => first_obstacle obstacles rest
      end
  end.

Definition nearest_type (obstacles : gmap cell obstacle_type) (margin : Z)
    (c : cell) : option obstacle_type :=
  first_obstacle obstacles (box margin c).

(** The rectangles of one cell of [expanded_obstacles]. *)
Definition margin_patches (obstacles : gmap cell obstacle_type)
    (margin : Z) (c : cell) : list patch :=
  match obstacles !! c with
  | Some _ => []
  | None =>
      let nearest := nearest_type obstacles margin c in
      let margin_color :=
        match nearest with
        | Some t => obstacle_types t
        | None => pink
        end in
      Faint c margin_color
      :: match nearest with
         | Some TunnelWall => [Dashed c cyan]
         | Some LowWall => [Dashed c orange]
         | _ => []
         end
  end.

Definition draw_obstacles (w : world) : list patch :=
  map (fun '(c, otype) => Filled c (obstacle_types otype))
      (map_to_list (obstacles w))
  ++ (c ← elements (expanded_obstacles w);
      margin_patches (obstacles w) (safety_margin w) c).

(** ** [animate] *)

(** What [animate] hands to the artists: the dots, one segment for each
    connection, the rectangles. *)
Record frame : Type := Frame {
  dots : list point;
  segments : list (point * point);
  patches : list patch
}.

Fixpoint segments_of (positions : anchors) (connections : list (Z * Z))
    : option (list (point * point)) :=
  match connections with
  | [] => Some []
  | (a, b) :: rest =>
      pa ← dict_get a positions;
      pb ← dict_get b positions;
      segs ← segments_of positions rest;
      Some ((pa, pb) :: segs)
  end.

Definition animate (w : world) : option (world * frame) :=
  w' ← update_positions w;
  segs ← segments_of (positions w') (connections w');
  Some (w', {| dots := (positions w').*2;
               segments := segs;
               patches := draw_obstacles w' |}).

(** ** Worlds the program can be in *)

(** The anchors of the body are those of its topology, the center is one
    of them and rests on a finite point, and every connection joins two of
    them. *)
Definition well_formed (w : world) : Prop :=
  (positions w).*1 = (initial_positions w).*1
  ∧ (∃ pc, dict_get (center_id w) (initial_positions w) = Some pc
           ∧ finite_point pc)
  ∧ ∀ a b, (a, b) ∈ connections w →
           a ∈ (initial_positions w).*1 ∧ b ∈ (initial_positions w).*1.

(** No obstacle asks for another kind than the active one. *)
Definition quiet (w : world) : Prop := ∀ n, required_kind w n = None.

(** One move of the program: a frame of the animation, a shape button, a
    radio button, a mouse click. *)
Inductive host_step {cost : Type} `{CostOps cost} : world → world → Prop :=
  | host_tick (w w' : world) :
      update_positions w = Some w' → host_step w w'
  | host_shape (w : world) (k : shape_type) :
      host_step w (switch_shape (factory k) w)
  | host_radio (w : world) (label : obstacle_type) :
      host_step w (set_obstacle_type label w)
  | host_click (fuel : nat) (event : mouse_event) (w w' : world)
      (printed : list message) :
      on_click fuel event w = Ok (w', printed) → host_step w w'.

(** The offsets of the body that the factory of kind [k] makes. *)
Definition factory_offsets (k : shape_type) : anchors :=
  default [] (relative_offsets (shape_positions (factory k))
                               (shape_center (factory k))).

(** The worlds of the program as it runs: the grid of the source, a body
    that one of the three factories made, its center on a cell, and a path
    of cells. *)
Definition sane (w : world) : Prop :=
  well_formed w
  ∧ grid_size w = (40, 40)
  ∧ (∃ k, initial_positions w = shape_positions (factory k)
          ∧ center_id w = shape_center (factory k))
  ∧ (∃ c, center_cell w = Some c ∧ exact_cell c)
  ∧ ∃ cells, path w = map np_array cells ∧ Forall exact_cell cells.

(** A click of the right button on the cell [(x, y)], and the globals
    after such a click on [(3, 3)] in the initial ones. *)
Definition right_click (x y : Z) : mouse_event :=
  {| inaxes := true; xdata := F64.of_Z x; ydata := F64.of_Z y;
     button := 3; shift := false |}.

(** The globals that a handler leaves, or [w] when it raises. *)
Definition after (r : result (world * list message)) (w : world) : world :=
  match r with
  | Ok (w', _) => w'
  | _ => w
  end.

Definition clicked_world : world :=
  after (on_click (H := f64_cost) 100 (right_click 3 3) initial_world)
        initial_world.

(** [tunnel_world] after a click of the right button on [(3, 3)]. *)
Definition planned_world : world :=
  after (on_click_plan (H := f64_cost) 100 tunnel_world (3, 3)) tunnel_world.

(** * Properties *)

(** ** Ranges and boxes *)

Lemma elem_of_py_range (a b x : Z) : x ∈ py_range a b ↔ a ≤ x < b.
Proof.
  unfold py_range. rewrite list_elem_of_fmap. split.
  - intros (i & -> & Hi). apply elem_of_seq in Hi. lia.
  - intros Hx. exists (Z.to_nat (x - a)). split; [lia|].
    apply elem_of_seq. lia.
Qed.

Lemma elem_of_box (margin : Z) (c n : cell) :
  n ∈ box margin c ↔
  c.1 - margin ≤ n.1 ≤ c.1 + margin ∧ c.2 - margin ≤ n.2 ≤ c.2 + margin.
Proof.
  unfold box. rewrite list_elem_of_bind. split.
  - intros (dx & Hn & Hdx). apply list_elem_of_bind in Hn as (dy & Hn & Hdy).
    apply list_elem_of_singleton in Hn as ->.
    apply elem_of_py_range in Hdx, Hdy. simpl. lia.
  - intros [Hx Hy]. exists (n.1 - c.1). split.
    + apply list_elem_of_bind. exists (n.2 - c.2). split.
      * apply list_elem_of_singleton. destruct n as [nx ny]. simpl. f_equal; lia.
      * apply elem_of_py_range. lia.
    + apply elem_of_py_range. lia.
Qed.

(** ** The blocking rule *)

(** C4: [is_blocked] returns a boolean for every cell, obstacle field and
    kind, and it is [true] exactly when the kind is [line] and the cell holds
    an obstacle, or the cell holds a high wall, or the kind is [dog] and the
    cell holds a tunnel wall, or the kind is [snake] and the cell holds a low
    wall; a cell with no obstacle blocks no kind. *)
Theorem is_blocked_table (obs : gmap cell obstacle_type) (k : shape_type)
    (c : cell) :
  (is_blocked obs k c = true ↔
     (k = line ∧ ∃ o, obs !! c = Some o)
     ∨ obs !! c = Some HighWall
     ∨ (k = dog ∧ obs !! c = Some TunnelWall)
     ∨ (k = snake ∧ obs !! c = Some LowWall))
  ∧ (obs !! c = None → is_blocked obs k c = false).
Proof.
  unfold is_blocked.
  destruct (obs !! c) as [o|] eqn:Ho.
  - split; [|discriminate].
    destruct k, o; simpl; split; intros Hb;
      try discriminate; try reflexivity; eauto 6;
      destruct Hb as [[? ?]|[?|[[? ?]|[? ?]]]]; congruence.
  - split; [|destruct k; reflexivity].
    destruct k; simpl; split; intros Hb; try discriminate;
      destruct Hb as [[? [o ?]]|[?|[[? ?]|[? ?]]]]; congruence.
Qed.

(** ** Switching *)

Lemma required_kind_cases (w : world) (n : cell) (k : shape_type) :
  required_kind w n = Some k ↔
  (obstacles w !! n = Some TunnelWall ∧ k = snake ∧ current_shape_type w ≠ snake)
  ∨ (obstacles w !! n = Some LowWall ∧ k = dog ∧ current_shape_type w ≠ dog).
Proof.
  unfold required_kind.
  destruct (obstacles w !! n) as [[]|]; simpl;
    repeat case_decide; split; intros Hk;
    try discriminate; try (injection Hk as <-);
    try (destruct Hk as [(? & ? & ?)|(? & ? & ?)]); subst;
    try congruence; try discriminate; eauto.
Qed.

Lemma required_kind_none (w : world) (n : cell) :
  required_kind w n = None ↔
  ¬ (obstacles w !! n = Some TunnelWall ∧ current_shape_type w ≠ snake)
  ∧ ¬ (obstacles w !! n = Some LowWall ∧ current_shape_type w ≠ dog).
Proof.
  unfold required_kind.
  destruct (obstacles w !! n) as [[]|]; simpl;
    repeat case_decide; split; intros Hk;
    try discriminate; try reflexivity;
    try (split; intros [? ?]; congruence);
    destruct Hk as [H1 H2]; try (exfalso; apply H1; split; congruence);
    try (exfalso; apply H2; split; congruence).
Qed.

(** One step of the scan, read through the switch policy. *)
Lemma scan_cons (w : world) (n : cell) (rest : list cell) :
  scan w (n :: rest) =
  match required_kind w n with
  | Some k => switch_shape (factory k) w
  | None => scan w rest
  end.
Proof.
  destruct (required_kind w n) as [k|] eqn:Hk.
  - apply required_kind_cases in Hk as [(Ho & -> & Hs)|(Ho & -> & Hs)];
      simpl; rewrite Ho.
    + rewrite decide_True by done. reflexivity.
    + rewrite decide_False by (intros [? ?]; discriminate).
      rewrite decide_True by done. reflexivity.
  - apply required_kind_none in Hk as [H1 H2]. simpl.
    destruct (obstacles w !! n) as [o|]; [|reflexivity].
    rewrite decide_False by (intros [-> ?]; apply H1; done).
    rewrite decide_False by (intros [-> ?]; apply H2; done).
    reflexivity.
Qed.

Lemma scan_quiet (w : world) (cells : list cell) :
  (∀ m, m ∈ cells → required_kind w m = None) → scan w cells = w.
Proof.
  induction cells as [|n rest IH]; intros Hq; [reflexivity|].
  rewrite scan_cons, (Hq n) by (left).
  apply IH. intros m Hm. apply Hq. by right.
Qed.

Lemma scan_first (w : world) (pre post : list cell) (n : cell)
    (k : shape_type) :
  (∀ m, m ∈ pre → required_kind w m = None) →
  required_kind w n = Some k →
  scan w (pre ++ n :: post) = switch_shape (factory k) w.
Proof.
  induction pre as [|p pre IH]; intros Hq Hn.
  - simpl app. rewrite scan_cons, Hn. reflexivity.
  - change ((p :: pre) ++ n :: post) with (p :: (pre ++ n :: post)).
    rewrite scan_cons, (Hq p) by (left).
    apply IH; [|done]. intros m Hm. apply Hq. by right.
Qed.

(** The scan either finds nothing, or stops at its first match. *)
Lemma scan_cases (w : world) (cells : list cell) :
  ((∀ m, m ∈ cells → required_kind w m = None) ∧ scan w cells = w)
  ∨ (∃ pre n post k,
       cells = pre ++ n :: post
       ∧ (∀ m, m ∈ pre → required_kind w m = None)
       ∧ required_kind w n = Some k
       ∧ scan w cells = switch_shape (factory k) w).
Proof.
  induction cells as [|n rest IH].
  - left. split; [|reflexivity]. intros m Hm. by apply elem_of_nil in Hm.
  - destruct (required_kind w n) as [k|] eqn:Hk.
    + right. exists [], n, rest, k. split_and!; try done.
      * intros m Hm. by apply elem_of_nil in Hm.
      * rewrite scan_cons, Hk. reflexivity.
    + destruct IH as [[Hq Hs]|(pre & n' & post & k & -> & Hq & Hn & Hs)].
      * left. split.
        -- intros m [->|Hm]%elem_of_cons; auto.
        -- rewrite scan_cons, Hk. exact Hs.
      * right. exists (n :: pre), n', post, k. split_and!; try done.
        -- intros m [->|Hm]%elem_of_cons; auto.
        -- rewrite scan_cons, Hk. exact Hs.
Qed.

Lemma advance_keeps (w w1 : world) (next_pos : point) :
  advance w next_pos = Some w1 →
  current_shape_type w1 = current_shape_type w
  ∧ obstacles w1 = obstacles w
  ∧ safety_margin w1 = safety_margin w
  ∧ center_id w1 = center_id w
  ∧ initial_positions w1 = initial_positions w
  ∧ step_index w1 = S (step_index w).
Proof.
  unfold advance. intros Ha.
  destruct (dict_get (center_id w) (positions w)); [|discriminate].
  simpl in Ha.
  destruct (move_anchors _ _ _ _); [|discriminate].
  injection Ha as <-. done.
Qed.

(** C8: once the body has moved to the next path cell, [update_positions]
    scans the box of side [2 * safety_margin + 1] around the new center
    cell; at the first cell of the scan whose obstacle asks for a kind other
    than the active one (a tunnel wall asks for the snake, a low wall for
    the dog, a high wall for none) it switches to that kind and returns,
    whatever the cells after it hold: the active kind is then the kind asked
    for, which it was not before, and the anchors, the connections and the
    center are those of the factory of that kind; when the scan finds no such
    cell the active kind stays. *)
Theorem update_positions_scan (w w1 : world) (next_pos : point) (c : cell) :
  path w !! step_index w = Some next_pos →
  advance w next_pos = Some w1 →
  center_cell w1 = Some c →
  let cells := box (safety_margin w) c in
  (∀ n, n ∈ cells ↔
        c.1 - safety_margin w ≤ n.1 ≤ c.1 + safety_margin w
        ∧ c.2 - safety_margin w ≤ n.2 ≤ c.2 + safety_margin w)
  ∧ (∀ pre n post k,
       cells = pre ++ n :: post →
       (∀ m, m ∈ pre → required_kind w1 m = None) →
       required_kind w1 n = Some k →
       ∃ w', update_positions w = Some w'
             ∧ w' = switch_shape (factory k) w1
             ∧ current_shape_type w' = k
             ∧ k ≠ current_shape_type w
             ∧ ((obstacles w !! n = Some TunnelWall ∧ k = snake)
                ∨ (obstacles w !! n = Some LowWall ∧ k = dog))
             ∧ positions w' = shape_positions (factory k)
             ∧ initial_positions w' = shape_positions (factory k)
             ∧ connections w' = shape_connections (factory k)
             ∧ center_id w' = shape_center (factory k)
             ∧ step_index w' = S (step_index w))
  ∧ ((∀ m, m ∈ cells → required_kind w1 m = None) →
     update_positions w = Some w1
     ∧ current_shape_type w1 = current_shape_type w).
Proof.
  intros Hp Ha Hc cells.
  destruct (advance_keeps _ _ _ Ha) as (Hk & Ho & Hm & _ & _ & Hi).
  assert (Hu : update_positions w = Some (scan w1 cells)).
  { unfold update_positions. rewrite Hp. simpl. rewrite Ha. simpl.
    rewrite Hc. simpl. rewrite Hm. reflexivity. }
  split_and!.
  - intros n. apply elem_of_box.
  - intros pre n post k Hcells Hq Hn.
    exists (switch_shape (factory k) w1).
    apply required_kind_cases in Hn as Hcases. rewrite Ho, Hk in Hcases.
    split_and!; try done.
    + rewrite Hu, Hcells. f_equal. by apply scan_first.
    + by destruct k.
    + by destruct Hcases as [(_ & -> & ?)|(_ & -> & ?)].
    + destruct Hcases as [(? & ? & _)|(? & ? & _)]; auto.
  - intros Hq. split; [|exact Hk]. rewrite Hu. f_equal. by apply scan_quiet.
Qed.

Lemma update_positions_scan_witness :
  ∃ w', update_positions tunnel_world = Some w'
        ∧ w' = switch_shape (factory snake) tunnel_world_moved
        ∧ current_shape_type w' = snake
        ∧ snake ≠ current_shape_type tunnel_world
        ∧ ((obstacles tunnel_world !! ((6, 5) : cell) = Some TunnelWall
            ∧ snake = snake)
           ∨ (obstacles tunnel_world !! ((6, 5) : cell) = Some LowWall
              ∧ snake = dog))
        ∧ positions w' = shape_positions (factory snake)
        ∧ initial_positions w' = shape_positions (factory snake)
        ∧ connections w' = shape_connections (factory snake)
        ∧ center_id w' = shape_center (factory snake)
        ∧ step_index w' = S (step_index tunnel_world).
Proof.
  refine (proj1 (proj2 (update_positions_scan tunnel_world tunnel_world_moved
            (np_array (5, 5)) (5, 5) _ _ _))
            [(4, 4); (4, 5); (4, 6); (5, 4); (5, 5); (5, 6); (6, 4)]
            (6, 5) [(6, 6)] snake _ _ _).
  - reflexivity.
  - vm_compute. reflexivity.
  - vm_compute. reflexivity.
  - vm_compute. reflexivity.
  - intros m Hm. repeat (apply elem_of_cons in Hm as [->|Hm]);
      [vm_compute; reflexivity .. | by apply elem_of_nil in Hm].
  - vm_compute. reflexivity.
Defined.

Lemma update_positions_cases (w w' : world) :
  update_positions w = Some w' →
  (path w !! step_index w = None ∧ w' = w)
  ∨ (∃ next_pos w1 c,
       path w !! step_index w = Some next_pos
       ∧ advance w next_pos = Some w1
       ∧ center_cell w1 = Some c
       ∧ w' = scan w1 (box (safety_margin w) c)).
Proof.
  unfold update_positions. intros Hu.
  destruct (path w !! step_index w) as [next_pos|] eqn:Hp.
  - right. destruct (advance w next_pos) as [w1|] eqn:Ha; [|discriminate].
    simpl in Hu. destruct (center_cell w1) as [c|] eqn:Hc; [|discriminate].
    simpl in Hu. injection Hu as <-.
    destruct (advance_keeps _ _ _ Ha) as (_ & _ & Hm & _).
    exists next_pos, w1, c. rewrite <- Hm. done.
  - left. injection Hu as <-. done.
Qed.

(** A step that changes the active kind went through [switch_shape], at a
    cell of the box whose obstacle asked for the new kind. *)
Lemma update_positions_switch (w w' : world) :
  update_positions w = Some w' →
  current_shape_type w' ≠ current_shape_type w →
  ∃ next_pos w1 c n k,
    advance w next_pos = Some w1
    ∧ center_cell w1 = Some c
    ∧ n ∈ box (safety_margin w) c
    ∧ required_kind w1 n = Some k
    ∧ w' = switch_shape (factory k) w1.
Proof.
  intros Hu Hne.
  destruct (update_positions_cases _ _ Hu)
    as [[_ ->]|(next_pos & w1 & c & _ & Ha & Hc & ->)]; [done|].
  destruct (advance_keeps _ _ _ Ha) as (Hk & _).
  destruct (scan_cases w1 (box (safety_margin w) c))
    as [[_ Hs]|(pre & n & post & k & Hbox & _ & Hn & Hs)].
  - rewrite Hs in Hne. congruence.
  - exists next_pos, w1, c, n, k. split_and!; try done.
    rewrite Hbox. apply elem_of_app. right. by left.
Qed.

Lemma factory_kind (k : shape_type) : shape_kind (factory k) = k.
Proof. by destruct k. Qed.

(** C1, on the program: [switch_shape] does not keep the body where it
    was.  The dog centered on [(5, 5)] that is switched to the line has its
    center anchor at the line's rest position [(11, 5)], not at the previous
    center plus the zero offset of the center anchor. *)
Lemma switch_shape_moves_center :
  ¬ (∀ (w : world) (new_shape : shape) (k : Z) (p c : point),
       dict_get (center_id w) (positions w) = Some c →
       dict_get k (positions (switch_shape new_shape w)) = Some p →
       ∃ pk pc,
         dict_get k (shape_positions new_shape) = Some pk
         ∧ dict_get (shape_center new_shape) (shape_positions new_shape)
           = Some pc
         ∧ p = np_add c (np_sub pk pc)).
Proof.
  intros Hclaim.
  assert (Hc : dict_get (center_id tunnel_world_moved)
                 (positions tunnel_world_moved) = Some (np_array (5, 5)))
    by (vm_compute; reflexivity).
  assert (Hp : dict_get 12
                 (positions (switch_shape get_line_shape tunnel_world_moved))
               = Some (np_array (11, 5)))
    by (vm_compute; reflexivity).
  destruct (Hclaim _ _ _ _ _ Hc Hp) as (pk & pc & Hk & Hpc & Heq).
  vm_compute in Hk, Hpc.
  injection Hk as <-. injection Hpc as <-.
  vm_compute in Heq. discriminate Heq.
Qed.

(** C1, as the program has it: right after a topology switch, whether the
    host asked for it through [switch_shape] or [update_positions] made it,
    every anchor is at the rest position the new topology gives it, whatever
    the position of the center before the switch; the center anchor is the
    new topology's, and the active kind is the new topology's kind. *)
Theorem switch_shape_rest_positions (new_shape : shape) (w : world) :
  (positions (switch_shape new_shape w) = shape_positions new_shape
   ∧ (∀ k, dict_get k (positions (switch_shape new_shape w))
           = dict_get k (shape_positions new_shape))
   ∧ center_id (switch_shape new_shape w) = shape_center new_shape
   ∧ current_shape_type (switch_shape new_shape w) = shape_kind new_shape)
  ∧ (∀ w', update_positions w = Some w' →
           current_shape_type w' ≠ current_shape_type w →
           positions w' = shape_positions (factory (current_shape_type w'))
           ∧ center_id w' = shape_center (factory (current_shape_type w'))).
Proof.
  split; [done|].
  intros w' Hu Hne.
  destruct (update_positions_switch _ _ Hu Hne)
    as (next_pos & w1 & c & n & k & _ & _ & _ & _ & ->).
  simpl. rewrite factory_kind. done.
Qed.




(** ** Inflation *)

Lemma in_bounds_spec (grid_size c : cell) :
  in_bounds grid_size c = true ↔
  0 ≤ c.1 < grid_size.1 ∧ 0 ≤ c.2 < grid_size.2.
Proof. unfold in_bounds. apply bool_decide_eq_true. Qed.

Lemma elem_of_inflate_cells (grid_size : cell) (cells : list cell)
    (acc : gset cell) (n : cell) :
  n ∈ foldl (fun acc n => if in_bounds grid_size n then {[n]} ∪ acc else acc)
            acc cells
  ↔ n ∈ acc ∨ (n ∈ cells ∧ in_bounds grid_size n = true).
Proof.
  revert acc. induction cells as [|c cells IH]; intros acc; simpl.
  - split; [by left|]. intros [?|[Hn _]]; [done|]. by apply elem_of_nil in Hn.
  - rewrite IH, elem_of_cons. destruct (in_bounds grid_size c) eqn:Hc.
    + rewrite elem_of_union, elem_of_singleton. split.
      * intros [[->|?]|[? ?]]; auto.
      * intros [?|[[->|?] ?]]; auto.
    + split.
      * intros [?|[? ?]]; auto.
      * intros [?|[[->|?] ?]]; auto. congruence.
Qed.

Lemma elem_of_inflate_cell (margin : Z) (grid_size o : cell)
    (acc : gset cell) (n : cell) :
  n ∈ inflate_cell margin grid_size o acc
  ↔ n ∈ acc ∨ (n ∈ box margin o ∧ in_bounds grid_size n = true).
Proof. apply elem_of_inflate_cells. Qed.

Lemma elem_of_inflate_fold (obs : gmap cell obstacle_type) (k : shape_type)
    (margin : Z) (grid_size : cell) (keys : list cell) (acc : gset cell)
    (n : cell) :
  n ∈ foldl (fun acc o =>
               if is_blocked obs k o
               then inflate_cell margin grid_size o acc
               else acc) acc keys
  ↔ n ∈ acc
    ∨ (∃ o, o ∈ keys ∧ is_blocked obs k o = true
            ∧ n ∈ box margin o ∧ in_bounds grid_size n = true).
Proof.
  revert acc. induction keys as [|o keys IH]; intros acc; simpl.
  - split; [by left|]. intros [?|(o & Ho & _)]; [done|].
    by apply elem_of_nil in Ho.
  - rewrite IH. destruct (is_blocked obs k o) eqn:Hb.
    + rewrite elem_of_inflate_cell. split.
      * intros [[?|[? ?]]|(o' & ? & ? & ? & ?)]; auto.
        -- right. exists o. split_and!; try done. by left.
        -- right. exists o'. split_and!; try done. by right.
      * intros [?|(o' & [->|?]%elem_of_cons & ? & ? & ?)]; auto.
        right. exists o'. done.
    + split.
      * intros [?|(o' & ? & ? & ? & ?)]; auto.
        right. exists o'. split_and!; try done. by right.
      * intros [?|(o' & [->|?]%elem_of_cons & ? & ? & ?)]; auto.
        -- congruence.
        -- right. exists o'. done.
Qed.

Lemma elem_of_inflate (old : gset cell) (obs : gmap cell obstacle_type)
    (k : shape_type) (margin : Z) (grid_size n : cell) :
  n ∈ inflate old obs k margin grid_size
  ↔ in_bounds grid_size n = true
    ∧ ∃ o, is_Some (obs !! o) ∧ is_blocked obs k o = true
           ∧ Z.abs (n.1 - o.1) ≤ margin ∧ Z.abs (n.2 - o.2) ≤ margin.
Proof.
  unfold inflate. rewrite elem_of_inflate_fold. split.
  - intros [Hn|(o & Ho & Hb & Hbox & Hin)]; [by apply elem_of_empty in Hn|].
    split; [done|]. exists o.
    apply list_elem_of_fmap in Ho as ([o' ty] & -> & Ho).
    apply elem_of_map_to_list in Ho. apply elem_of_box in Hbox.
    split_and!; eauto; simpl in *; lia.
  - intros (Hin & o & [ty Ho] & Hb & Hx & Hy). right. exists o.
    split_and!; try done.
    + apply list_elem_of_fmap. exists (o, ty). split; [done|].
      by apply elem_of_map_to_list.
    + apply elem_of_box. lia.
Qed.

(** C5: every call of [a_star] leaves in [expanded_obstacles] a set built
    from the empty set, whatever the global held before: exactly the cells
    of the grid within [safety_margin] of an obstacle cell, in both
    coordinates, whose class blocks the active kind.  Obstacles that do not
    block add nothing. *)
Theorem a_star_inflates {cost : Type} `{CostOps cost} (fuel : nat)
    (w : world) (start goal : cell) (obs : gmap cell obstacle_type)
    (grid : cell) :
  (a_star fuel w start goal obs grid).1
  = inflate ∅ obs (current_shape_type w) (safety_margin w) grid
  ∧ ∀ n : cell,
      n ∈ (a_star fuel w start goal obs grid).1
      ↔ in_bounds grid n = true
        ∧ ∃ o, is_Some (obs !! o)
               ∧ is_blocked obs (current_shape_type w) o = true
               ∧ Z.abs (n.1 - o.1) ≤ safety_margin w
               ∧ Z.abs (n.2 - o.2) ≤ safety_margin w.
Proof.
  split; [reflexivity|]. intros n. apply elem_of_inflate.
Qed.

(** ** The full-body check *)

Lemma is_valid_position_true (grid_size : cell) (expanded : gset cell)
    (offsets : list point) (center : point) :
  is_valid_position grid_size expanded offsets center = Some true
  ↔ ∀ offset, offset ∈ offsets →
      ∃ cx cy,
        F64.py_round (np_add center offset).1 = Some cx
        ∧ F64.py_round (np_add center offset).2 = Some cy
        ∧ in_bounds grid_size (cx, cy) = true
        ∧ (cx, cy) ∉ expanded.
Proof.
  induction offsets as [|offset rest IH]; simpl in *.
  - split; [|done]. intros _ offset Ho. by apply elem_of_nil in Ho.
  - destruct (F64.py_round (F64.add center.1 offset.1)) as [cx|] eqn:Hx; simpl.
    2:{ split; [done|]. intros Hall.
        destruct (Hall offset) as (? & ? & ? & _); [by left|congruence]. }
    destruct (F64.py_round (F64.add center.2 offset.2)) as [cy|] eqn:Hy; simpl.
    2:{ split; [done|]. intros Hall.
        destruct (Hall offset) as (? & ? & ? & ? & _); [by left|congruence]. }
    destruct (in_bounds grid_size (cx, cy)) eqn:Hb; simpl.
    2:{ split; [done|]. intros Hall.
        destruct (Hall offset) as (? & ? & ? & ? & ? & _); [by left|congruence]. }
    case_bool_decide as He; simpl.
    { split; [done|]. intros Hall.
      destruct (Hall offset) as (? & ? & ? & ? & ? & ?); [by left|congruence]. }
    rewrite IH. split.
    + intros Hall o [->|Ho]%elem_of_cons; [|by apply Hall].
      exists cx, cy. done.
    + intros Hall o Ho. apply Hall. by right.
Qed.

Lemma elem_of_offsets_of (ip : anchors) (cid : Z) (keys offs : anchors)
    (offset : point) :
  offsets_of ip cid keys = Some offs →
  offset ∈ offs.*2
  ↔ ∃ k pk pc, k ∈ keys.*1 ∧ dict_get k ip = Some pk
               ∧ dict_get cid ip = Some pc ∧ offset = np_sub pk pc.
Proof.
  revert offs. induction keys as [|[k p] keys IH]; intros offs; simpl.
  - intros [= <-]. simpl. split.
    + intros Ho. by apply elem_of_nil in Ho.
    + intros (? & ? & ? & Hk & _). by apply elem_of_nil in Hk.
  - destruct (dict_get k ip) as [pk|] eqn:Hk; [|done]. simpl.
    destruct (dict_get cid ip) as [pc|] eqn:Hc; [|done]. simpl.
    destruct (offsets_of ip cid keys) as [rest|]; [|done]. simpl.
    intros [= <-]. simpl. rewrite elem_of_cons, (IH rest eq_refl). split.
    + intros [->|(k' & pk' & pc' & ? & ? & ? & ?)].
      * exists k, pk, pc. split_and!; try done. by left.
      * exists k', pk', pc'. split_and!; try done. by right.
    + intros (k' & pk' & pc' & [->|?]%elem_of_cons & ? & ? & ->).
      * left. congruence.
      * right. exists k', pk', pc'. done.
Qed.

Lemma offsets_of_defined (ip : anchors) (cid : Z) (keys offs : anchors)
    (k : Z) :
  offsets_of ip cid keys = Some offs →
  k ∈ keys.*1 →
  ∃ pk pc, dict_get k ip = Some pk ∧ dict_get cid ip = Some pc.
Proof.
  revert offs. induction keys as [|[k' p] keys IH]; intros offs; simpl.
  - intros _ Hk. by apply elem_of_nil in Hk.
  - destruct (dict_get k' ip) as [pk|] eqn:Hk'; [|done]. simpl.
    destruct (dict_get cid ip) as [pc|] eqn:Hc; [|done]. simpl.
    destruct (offsets_of ip cid keys) as [rest|]; [|done]. simpl.
    intros _ [->|Hk]%elem_of_cons; eauto.
Qed.

(** C6: [is_valid_position(center)] returns [True] if and only if every
    anchor of the active topology, placed at [center] plus its offset from
    the center anchor and rounded coordinate by coordinate to the nearest
    integer, lands on a cell of the grid that is not in the inflated set.
    One anchor that fails makes the answer differ from [True]. *)
Theorem is_valid_position_full_body (w : world) (grid : cell)
    (expanded : gset cell) (offs : anchors) (center : point) :
  relative_offsets (initial_positions w) (center_id w) = Some offs →
  is_valid_position grid expanded offs.*2 center = Some true
  ↔ ∀ k, k ∈ (initial_positions w).*1 →
      ∃ pk pc cx cy,
        dict_get k (initial_positions w) = Some pk
        ∧ dict_get (center_id w) (initial_positions w) = Some pc
        ∧ F64.py_round (np_add center (np_sub pk pc)).1 = Some cx
        ∧ F64.py_round (np_add center (np_sub pk pc)).2 = Some cy
        ∧ in_bounds grid (cx, cy) = true
        ∧ (cx, cy) ∉ expanded.
Proof.
  intros Hoffs. unfold relative_offsets in Hoffs.
  rewrite is_valid_position_true. split.
  - intros Hall k Hk.
    destruct (offsets_of_defined _ _ _ _ _ Hoffs Hk)
      as (pk & pc & Hpk & Hpc).
    assert (Hin : np_sub pk pc ∈ offs.*2).
    { apply (elem_of_offsets_of _ _ _ _ _ Hoffs). exists k, pk, pc. done. }
    destruct (Hall _ Hin) as (cx & cy & ? & ? & ? & ?).
    exists pk, pc, cx, cy. done.
  - intros Hall offset Ho.
    apply (elem_of_offsets_of _ _ _ _ _ Hoffs) in Ho
      as (k & pk & pc & Hk & Hpk & Hpc & ->).
    destruct (Hall k Hk) as (pk' & pc' & cx & cy & ? & ? & ? & ? & ? & ?).
    exists cx, cy. split_and!; congruence.
Qed.

Lemma is_valid_position_full_body_witness :
  is_valid_position (40, 40) ∅ dog_offsets.*2 (np_array (5, 5)) = Some true
  ↔ ∀ k, k ∈ (initial_positions initial_world).*1 →
      ∃ pk pc cx cy,
        dict_get k (initial_positions initial_world) = Some pk
        ∧ dict_get (center_id initial_world) (initial_positions initial_world)
          = Some pc
        ∧ F64.py_round (np_add (np_array (5, 5)) (np_sub pk pc)).1 = Some cx
        ∧ F64.py_round (np_add (np_array (5, 5)) (np_sub pk pc)).2 = Some cy
        ∧ in_bounds (40, 40) (cx, cy) = true
        ∧ (cx, cy) ∉ (∅ : gset cell).
Proof.
  apply (is_valid_position_full_body initial_world (40, 40) ∅ dog_offsets
           (np_array (5, 5))).
  vm_compute. reflexivity.
Defined.

(** ** The search: what it keeps true *)

Section SearchFacts.

Context {cost : Type} `{CostOps cost}.
Variables (grid : cell) (expanded : gset cell) (offsets : list point).
Variables (start goal : cell).

(** The body of the loop over [directions], for one direction. *)
Definition relax (current : cell) (d : Z * Z) (s : @search cost)
    : option search :=
  let neighbor : cell := (current.1 + d.1, current.2 + d.2) in
  if negb (in_bounds grid neighbor) then Some s
  else
    valid ← is_valid_position grid expanded offsets (np_array neighbor);
    if negb valid then Some s
    else
      c ← cost_so_far s !! current;
      let new_cost := plus c (np_hypot d.1 d.2) in
      let better :=
        match cost_so_far s !! neighbor with
        | None => true
        | Some old => less new_cost old
        end in
      if better then
        Some {| frontier :=
                  heappush (frontier s)
                    (plus new_cost (heuristic goal neighbor), neighbor);
                came_from := <[neighbor := Some current]> (came_from s);
                cost_so_far := <[neighbor := new_cost]> (cost_so_far s) |}
      else Some s.

Lemma expand_cons (current : cell) (d : Z * Z) (dirs : list (Z * Z))
    (s : search) :
  expand grid expanded offsets goal current (d :: dirs) s
  = relax current d s ≫= expand grid expanded offsets goal current dirs.
Proof.
  destruct d as [dx dy]. unfold relax. cbn [expand fst snd]. cbn zeta.
  generalize ((current.1 + dx, current.2 + dy) : cell). intros n.
  destruct (negb (in_bounds grid n)); [reflexivity|].
  destruct (is_valid_position grid expanded offsets (np_array n)) as [[]|];
    cbn [mbind option_bind negb]; try reflexivity.
  destruct (cost_so_far s !! current) as [c|]; cbn [mbind option_bind];
    [|reflexivity].
  destruct (cost_so_far s !! n) as [old|];
    [destruct (less _ old)|]; reflexivity.
Qed.

(** What holds of the three locals all along the search. *)
Record search_inv (s : @search cost) : Prop := {
  inv_same_keys : ∀ c, is_Some (came_from s !! c) ↔ is_Some (cost_so_far s !! c);
  inv_parent : ∀ c p, came_from s !! c = Some (Some p) →
                      is_Some (came_from s !! p)
                      ∧ admissible_move grid expanded offsets p c;
  inv_root : ∀ c, came_from s !! c = Some None → c = start;
  inv_frontier : ∀ e, e ∈ frontier s → is_Some (cost_so_far s !! e.2);
  inv_start : is_Some (came_from s !! start);
  inv_reachable : ∀ c, is_Some (came_from s !! c) →
                       reachable grid expanded offsets start c
}.

(** [s'] knows every cell that [s] knows, and has queued every cell that
    it knows and [s] does not. *)
Definition extends (s s' : @search cost) : Prop :=
  (∀ c, is_Some (cost_so_far s !! c) → is_Some (cost_so_far s' !! c))
  ∧ (∀ e, e ∈ frontier s → e ∈ frontier s')
  ∧ (∀ c, is_Some (cost_so_far s' !! c) →
          is_Some (cost_so_far s !! c) ∨ ∃ p, (p, c) ∈ frontier s').

Lemma extends_refl (s : search) : extends s s.
Proof. split_and!; auto. Qed.

Lemma extends_trans (s1 s2 s3 : search) :
  extends s1 s2 → extends s2 s3 → extends s1 s3.
Proof.
  intros (Ha & Hb & Hc) (Ha' & Hb' & Hc'). split_and!; auto.
  intros c Hc3. destruct (Hc' c Hc3) as [Hc2|[p Hp]]; [|eauto].
  destruct (Hc c Hc2) as [?|[p Hp]]; eauto.
Qed.

Lemma relax_inv (current : cell) (d : Z * Z) (s s' : search) :
  d ∈ directions →
  search_inv s →
  is_Some (cost_so_far s !! current) →
  relax current d s = Some s' →
  search_inv s' ∧ extends s s'
  ∧ (∀ n : cell, n = (current.1 + d.1, current.2 + d.2) →
          admissible_move grid expanded offsets current n →
          is_Some (cost_so_far s' !! n)).
Proof.
  intros Hd Hinv [c Hc] Hr. unfold relax in Hr.
  cbn zeta in Hr. set (n := (current.1 + d.1, current.2 + d.2) : cell) in *.
  destruct (in_bounds grid n) eqn:Hb; cbn [negb] in Hr.
  2:{ injection Hr as <-. split_and!; [done|apply extends_refl|].
      intros ? -> (_ & Hb' & _). congruence. }
  destruct (is_valid_position grid expanded offsets (np_array n))
    as [[]|] eqn:Hv; cbn [mbind option_bind negb] in Hr; [| |done].
  2:{ injection Hr as <-. split_and!; [done|apply extends_refl|].
      intros ? -> (_ & _ & Hv'). unfold valid_center in Hv'. congruence. }
  rewrite Hc in Hr. cbn [mbind option_bind] in Hr.
  assert (Hmove : admissible_move grid expanded offsets current n).
  { split_and!; [|done|done]. exists d. done. }
  assert (Hcur : is_Some (came_from s !! current)).
  { apply (inv_same_keys s Hinv). eauto. }
  match type of Hr with (if ?b then _ else _) = _ => destruct b eqn:Hbetter end.
  2:{ injection Hr as <-. split_and!; [done|apply extends_refl|].
      intros ? -> _. revert Hbetter.
      destruct (cost_so_far s !! n); [eauto|done]. }
  injection Hr as <-. split_and!.
  - split; cbn [came_from cost_so_far frontier].
    + intros c'. rewrite !lookup_insert_is_Some.
      destruct (inv_same_keys s Hinv c'). intuition.
    + intros c' p. rewrite lookup_insert_Some.
      intros [[<- [= <-]]|[Hne Hp]].
      * split; [|done]. rewrite lookup_insert_is_Some.
        destruct (decide (n = current)); auto.
      * destruct (inv_parent s Hinv _ _ Hp) as [Hp1 Hp2]. split; [|done].
        rewrite lookup_insert_is_Some. destruct (decide (n = p)); auto.
    + intros c'. rewrite lookup_insert_Some.
      intros [[_ [=]]|[_ Hp]]. by apply (inv_root s Hinv).
    + intros e [->|He]%elem_of_cons; cbn [snd];
        rewrite lookup_insert_is_Some.
      * by left.
      * destruct (decide (n = e.2)); [by left|right]. split; [done|].
        by apply (inv_frontier s Hinv).
    + rewrite lookup_insert_is_Some. destruct (decide (n = start)); [by left|].
      right. split; [done|]. apply (inv_start s Hinv).
    + intros c'. rewrite lookup_insert_is_Some. intros [<-|[_ Hc']].
      * eapply rtc_r; [|exact Hmove]. by apply (inv_reachable s Hinv).
      * by apply (inv_reachable s Hinv).
  - split_and!; cbn [came_from cost_so_far frontier].
    + intros c' Hc'. rewrite lookup_insert_is_Some.
      destruct (decide (n = c')); auto.
    + intros e He. by right.
    + intros c'. rewrite lookup_insert_is_Some. intros [<-|[_ Hc']]; [|by left].
      right. eexists. by left.
  - intros ? -> _. cbn [cost_so_far]. rewrite lookup_insert_is_Some. by left.
Qed.

Lemma expand_inv (current : cell) (dirs : list (Z * Z)) (s s' : search) :
  (∀ d, d ∈ dirs → d ∈ directions) →
  search_inv s →
  is_Some (cost_so_far s !! current) →
  expand grid expanded offsets goal current dirs s = Some s' →
  search_inv s' ∧ extends s s'
  ∧ (∀ d (n : cell), d ∈ dirs → n = (current.1 + d.1, current.2 + d.2) →
            admissible_move grid expanded offsets current n →
            is_Some (cost_so_far s' !! n)).
Proof.
  revert s. induction dirs as [|d dirs IH]; intros s Hdirs Hinv Hcur He.
  - injection He as <-. split_and!; [done|apply extends_refl|].
    intros d n Hd. by apply elem_of_nil in Hd.
  - rewrite expand_cons in He.
    destruct (relax current d s) as [s1|] eqn:Hr; [|done].
    cbn [mbind option_bind] in He.
    destruct (relax_inv _ _ _ _ (Hdirs d (list_elem_of_here _ _)) Hinv Hcur Hr)
      as (Hinv1 & Hext1 & Hn1).
    destruct (IH s1) as (Hinv' & Hext' & Hn'); try done.
    { intros d' Hd'. apply Hdirs. by right. }
    { by apply Hext1. }
    split_and!; [done|by eapply extends_trans|].
    intros d' n [->|Hd']%elem_of_cons Hn Hm.
    + apply Hext'. by apply Hn1.
    + by eapply Hn'.
Qed.


(** [heappop] takes one tuple out of the heap. *)
Lemma heappop_Some (h rest : list (@entry cost)) (x : entry) :
  heappop h = Some (x, rest) →
  (∀ e, e ∈ h ↔ e = x ∨ e ∈ rest) ∧ length h = S (length rest).
Proof.
  revert x rest. induction h as [|y h IH]; intros x rest; simpl; [done|].
  destruct (heappop h) as [[z r]|] eqn:Hh.
  - destruct (IH z r eq_refl) as [Hmem Hlen].
    destruct (entry_ltb z y); intros [= <- <-]; simpl.
    + split; [|lia]. intros e. rewrite !elem_of_cons, Hmem. tauto.
    + split; [|done]. intros e. rewrite !elem_of_cons. tauto.
  - intros [= <- <-]. destruct h as [|z h]; [|simpl in Hh].
    + split; [|done]. intros e. rewrite !elem_of_cons. tauto.
    + destruct (heappop h) as [[? ?]|]; [destruct (entry_ltb _ z)|]; done.
Qed.

Lemma heappop_None (h : list (@entry cost)) : heappop h = None → h = [].
Proof.
  destruct h as [|y h]; [done|]. simpl.
  destruct (heappop h) as [[z r]|]; [destruct (entry_ltb z y)|]; done.
Qed.

(** Every cell the search knows is still queued, or has had all its
    admissible neighbours looked at. *)
Definition closed_inv (s : @search cost) : Prop :=
  ∀ c, is_Some (cost_so_far s !! c) →
       (∃ p, (p, c) ∈ frontier s)
       ∨ (∀ n, admissible_move grid expanded offsets c n →
               is_Some (cost_so_far s !! n)).

Lemma search_loop_unfold (fuel : nat) (s : search) :
  search_loop grid expanded offsets goal fuel s
  = match heappop (frontier s) with
    | None => Ok s
    | Some ((_, current), rest) =>
        let s1 := {| frontier := rest;
                     came_from := came_from s;
                     cost_so_far := cost_so_far s |} in
        if decide (current = goal) then Ok s1
        else
          match fuel with
          | O => OutOfFuel
          | S fuel' =>
              match expand grid expanded offsets goal current directions s1
              with
              | None => Raised
              | Some s2 => search_loop grid expanded offsets goal fuel' s2
              end
          end
    end.
Proof. destruct fuel; reflexivity. Qed.

Lemma pop_inv (s : search) (x : entry) (rest : list entry) :
  search_inv s →
  heappop (frontier s) = Some (x, rest) →
  search_inv {| frontier := rest; came_from := came_from s;
                cost_so_far := cost_so_far s |}
  ∧ is_Some (cost_so_far s !! x.2).
Proof.
  intros Hinv Hpop. destruct (heappop_Some _ _ _ Hpop) as [Hmem _]. split.
  - destruct Hinv. split; cbn [frontier came_from cost_so_far]; try done.
    intros e He. apply inv_frontier0, Hmem. by right.
  - apply (inv_frontier s Hinv), Hmem. by left.
Qed.

Lemma closed_all (s : search) (c : cell) :
  search_inv s → closed_inv s → frontier s = [] →
  reachable grid expanded offsets start c → is_Some (cost_so_far s !! c).
Proof.
  intros Hinv Hclosed Hempty Hreach. unfold reachable in Hreach.
  revert c Hreach. apply rtc_ind_r; [|intros a b Hab Hmove IH].
  - apply (inv_same_keys s Hinv), (inv_start s Hinv).
  - destruct (Hclosed a IH) as [[p Hp]|Hall]; [|by apply Hall].
    rewrite Hempty in Hp. by apply elem_of_nil in Hp.
Qed.

(** When the loop [while frontier] ends, the goal has a predecessor link
    exactly when it can be reached. *)
Lemma search_loop_done (s : search) :
  search_inv s →
  is_Some (cost_so_far s !! goal) →
  is_Some (came_from s !! goal) ↔ reachable grid expanded offsets start goal.
Proof.
  intros Hinv Hgoal. split; [apply (inv_reachable s Hinv)|].
  intros _. by apply (inv_same_keys s Hinv).
Qed.

Lemma search_loop_exhausted (s : search) :
  search_inv s → closed_inv s → frontier s = [] →
  is_Some (came_from s !! goal) ↔ reachable grid expanded offsets start goal.
Proof.
  intros Hinv Hclosed Hempty. split; [apply (inv_reachable s Hinv)|].
  intros Hr. apply (inv_same_keys s Hinv). by apply closed_all.
Qed.

(** One turn of the loop [while frontier] that expands [current] keeps
    both invariants. *)
Lemma turn_inv (s s2 : search) (prio : cost) (current : cell)
    (rest : list entry) :
  search_inv s → closed_inv s →
  heappop (frontier s) = Some ((prio, current), rest) →
  expand grid expanded offsets goal current directions
    {| frontier := rest; came_from := came_from s;
       cost_so_far := cost_so_far s |} = Some s2 →
  search_inv s2 ∧ closed_inv s2.
Proof.
  intros Hinv Hclosed Hpop He.
  destruct (pop_inv _ _ _ Hinv Hpop) as [Hinv1 Hcur]. cbn [snd] in Hcur.
  destruct (expand_inv _ _ _ _ (fun d Hd => Hd) Hinv1 Hcur He)
    as (Hinv2 & (Hdom & Hkeep & Hnew) & Hnbrs).
  split; [done|]. intros c Hc.
  destruct (heappop_Some _ _ _ Hpop) as [Hmem _].
  destruct (decide (c = current)) as [->|Hc'].
  { right. intros n Hn. destruct Hn as ((d & Hd & ->) & Hb & Hv).
    eapply Hnbrs; [exact Hd|done|]. split_and!; [by exists d|done|done]. }
  destruct (Hnew c Hc) as [Hold|Hq]; [|by left].
  destruct (Hclosed c Hold) as [[p Hp]|Hall].
  - apply Hmem in Hp as [[= _ ?]|Hp]; [done|]. left. exists p.
    apply Hkeep. exact Hp.
  - right. intros n Hn. apply Hdom. cbn [cost_so_far]. by apply Hall.
Qed.

(** When the loop [while frontier] ends, the goal has a predecessor link
    exactly when it can be reached. *)
Lemma search_loop_sound (fuel : nat) (s s' : search) :
  search_inv s → closed_inv s →
  search_loop grid expanded offsets goal fuel s = Ok s' →
  search_inv s'
  ∧ (is_Some (came_from s' !! goal) ↔ reachable grid expanded offsets start goal).
Proof.
  revert s. induction fuel as [|fuel IH]; intros s Hinv Hclosed;
    rewrite search_loop_unfold;
    destruct (heappop (frontier s)) as [[[prio current] rest]|] eqn:Hpop.
  - destruct (pop_inv _ _ _ Hinv Hpop) as [Hinv1 Hcur]. cbn [snd] in Hcur.
    cbn zeta. destruct (decide (current = goal)) as [->|Hne]; [|done].
    intros [= <-]. split; [done|]. by apply search_loop_done.
  - apply heappop_None in Hpop. intros [= <-]. split; [done|].
    by apply search_loop_exhausted.
  - destruct (pop_inv _ _ _ Hinv Hpop) as [Hinv1 Hcur]. cbn [snd] in Hcur.
    cbn zeta. destruct (decide (current = goal)) as [->|Hne].
    { intros [= <-]. split; [done|]. by apply search_loop_done. }
    destruct (expand grid expanded offsets goal current directions _)
      as [s2|] eqn:He; [|done].
    destruct (turn_inv _ _ _ _ _ Hinv Hclosed Hpop He) as [Hinv2 Hclosed2].
    by apply IH.
  - apply heappop_None in Hpop. intros [= <-]. split; [done|].
    by apply search_loop_exhausted.
Qed.

(** *** The walk back along the predecessor links *)

(** The cells the loop [while curr and curr in came_from] visits from
    [curr] on, in the order it appends them. *)
Inductive trail (cf : gmap cell (option cell))
    : option cell → list cell → Prop :=
  | trail_none : trail cf None []
  | trail_unknown (c : cell) : cf !! c = None → trail cf (Some c) []
  | trail_step (c : cell) (prev : option cell) (rest : list cell) :
      cf !! c = Some prev → trail cf prev rest →
      trail cf (Some c) (c :: rest).

Lemma walk_back_trail (fuel : nat) (cf : gmap cell (option cell))
    (curr : option cell) (acc path : list point) :
  walk_back fuel cf curr acc = Ok path →
  ∃ cells, trail cf curr cells ∧ path = acc ++ map np_array cells.
Proof.
  revert curr acc. induction fuel as [|fuel IH]; intros curr acc;
    destruct curr as [c|]; simpl.
  - destruct (cf !! c) as [prev|] eqn:Hc; [done|].
    intros [= <-]. exists []. split; [by constructor|by rewrite app_nil_r].
  - intros [= <-]. exists []. split; [constructor|by rewrite app_nil_r].
  - destruct (cf !! c) as [prev|] eqn:Hc.
    + intros Hw. destruct (IH _ _ Hw) as (cells & Ht & ->).
      exists (c :: cells). split; [by econstructor|].
      by rewrite <- app_assoc.
    + intros [= <-]. exists []. split; [by constructor|by rewrite app_nil_r].
  - intros [= <-]. exists []. split; [constructor|by rewrite app_nil_r].
Qed.

Lemma leads_one (c : cell) : leads grid expanded offsets c c [c].
Proof.
  split_and!; [done|done|]. intros [|i] a b Ha Hb; simpl in *; done.
Qed.

Lemma leads_snoc (a b c : cell) (cells : list cell) :
  leads grid expanded offsets a b cells →
  admissible_move grid expanded offsets b c →
  leads grid expanded offsets a c (cells ++ [c]).
Proof.
  intros (Hhead & Hlast & Hlink) Hmove. split_and!.
  - destruct cells; [done|]. exact Hhead.
  - apply last_snoc.
  - intros i x y Hx Hy.
    destruct (decide (S i < length cells)%nat) as [Hlt|Hge].
    + rewrite lookup_app_l in Hx, Hy by lia. by eapply Hlink.
    + assert (Hi : S i = length cells).
      { apply lookup_lt_Some in Hy. rewrite length_app in Hy. simpl in Hy.
        lia. }
      rewrite lookup_app_l in Hx by lia.
      rewrite lookup_app_r, Hi, Nat.sub_diag in Hy by lia.
      injection Hy as <-.
      rewrite last_lookup in Hlast. rewrite <- Hi in Hlast. simpl in Hlast.
      by replace x with b by congruence.
Qed.

(** Under the invariant a trail from a known cell leads back to the
    start. *)
Lemma trail_leads (s : search) (c : cell) (cells : list cell) :
  search_inv s →
  trail (came_from s) (Some c) cells →
  is_Some (came_from s !! c) →
  leads grid expanded offsets start c (rev cells).
Proof.
  intros Hinv Ht. remember (Some c) as curr eqn:Hcurr. revert c Hcurr.
  induction Ht as [|c' Hc'|c' prev rest Hc' Ht IH]; intros c [= ->] Hc.
  - rewrite Hc' in Hc. by destruct Hc.
  - destruct prev as [p|].
    + destruct (inv_parent s Hinv _ _ Hc') as [Hp Hmove].
      simpl. eapply leads_snoc; [|exact Hmove]. by apply IH.
    + apply (inv_root s Hinv) in Hc' as ->. inversion Ht; subst.
      apply leads_one.
Qed.

Lemma trail_unknown_nil (cf : gmap cell (option cell)) (c : cell)
    (cells : list cell) :
  trail cf (Some c) cells → cf !! c = None → cells = [].
Proof. intros Ht Hc. inversion Ht; subst; [done|congruence]. Qed.

End SearchFacts.

(** ** [a_star]: what a returned path is *)

Section PlannerFacts.

Context {cost : Type} `{CostOps cost}.

Lemma map_np_array_rev (cells : list cell) :
  rev (map np_array cells) = map np_array (rev cells).
Proof. symmetry. apply map_rev. Qed.

(** A path that [a_star] returns is empty when the goal cannot be reached
    by moves of the search, and otherwise lists the cells of such moves from
    [start] to [goal], both included. *)
Lemma a_star_sound (fuel : nat) (w : world) (start goal : cell)
    (obs : gmap cell obstacle_type) (grid : cell) (offs : anchors)
    (path : list point) :
  relative_offsets (initial_positions w) (center_id w) = Some offs →
  (a_star fuel w start goal obs grid).2 = Ok path →
  let expanded :=
    inflate ∅ obs (current_shape_type w) (safety_margin w) grid in
  ∃ cells,
    path = map np_array cells
    ∧ ((cells = [] ∧ ¬ reachable grid expanded offs.*2 start goal)
       ∨ (reachable grid expanded offs.*2 start goal
          ∧ leads grid expanded offs.*2 start goal cells)).
Proof.
  intros Hoffs Hrun expanded. unfold a_star in Hrun. cbn [snd] in Hrun.
  rewrite Hoffs in Hrun.
  change (inflate (expanded_obstacles w) obs (current_shape_type w)
            (safety_margin w) grid) with expanded in Hrun.
  set (s0 := {| frontier := [(zero, start)];
                came_from := {[start := None]};
                cost_so_far := {[start := zero]} |}) in Hrun.
  destruct (search_loop grid expanded offs.*2 goal fuel s0) as [s| |] eqn:Hs;
    [|done|done].
  destruct (walk_back fuel (came_from s) (Some goal) []) as [p| |] eqn:Hw;
    [|done|done].
  injection Hrun as <-.
  assert (Hinv0 : search_inv grid expanded offs.*2 start s0).
  { split; unfold s0; cbn [came_from cost_so_far frontier].
    - intros c. rewrite !lookup_singleton_is_Some. done.
    - intros c p'. rewrite lookup_singleton_Some. intros [_ [=]].
    - intros c. rewrite lookup_singleton_Some. by intros [<- _].
    - intros e ->%list_elem_of_singleton. cbn [snd].
      by rewrite lookup_singleton_eq.
    - by rewrite lookup_singleton_eq.
    - intros c. rewrite lookup_singleton_is_Some. intros <-. apply rtc_refl. }
  assert (Hclosed0 : closed_inv grid expanded offs.*2 s0).
  { intros c. unfold s0. cbn [cost_so_far frontier].
    rewrite lookup_singleton_is_Some. intros <-. left. exists zero. by left. }
  destruct (search_loop_sound _ _ _ _ _ _ _ _ Hinv0 Hclosed0 Hs)
    as [Hinv Hgoal].
  destruct (walk_back_trail _ _ _ _ _ Hw) as (cells & Ht & ->).
  exists (rev cells). split; [by rewrite app_nil_l, map_np_array_rev|].
  destruct (came_from s !! goal) as [prev|] eqn:Hg.
  - right. split; [apply Hgoal; eauto|].
    eapply trail_leads; [exact Hinv|exact Ht|]. rewrite Hg. eauto.
  - left. rewrite (trail_unknown_nil _ _ _ Ht Hg). split; [done|].
    intros Hr. apply Hgoal in Hr. by destruct Hr.
Qed.

End PlannerFacts.

(** ** Termination *)

Lemma elem_of_grid_cells (grid c : cell) :
  c ∈ grid_cells grid ↔ in_bounds grid c = true.
Proof.
  rewrite in_bounds_spec. unfold grid_cells. rewrite list_elem_of_bind. split.
  - intros (x & Hc & Hx). apply list_elem_of_bind in Hc as (y & Hc & Hy).
    apply list_elem_of_singleton in Hc as ->.
    apply elem_of_py_range in Hx, Hy. simpl. lia.
  - intros [Hx Hy]. exists c.1. split.
    + apply list_elem_of_bind. exists c.2. split.
      * apply list_elem_of_singleton. by destruct c.
      * apply elem_of_py_range. lia.
    + apply elem_of_py_range. lia.
Qed.

Section Termination.

Context {cost : Type} `{CostOps cost} `{!CostLaws cost}.

(** [<] between two costs that the search can meet. *)
Definition below (a b : cost) : Prop := sound a ∧ sound b ∧ less a b = true.

(** A known cost is below an unknown one, and below a greater one. *)
Definition olt (x y : option cost) : Prop :=
  match x, y with
  | Some a, Some b => below a b
  | Some _, None => True
  | None, _ => False
  end.

Definition oltt : relation (option cost) := clos_trans (option cost) olt.

Lemma olt_wf : well_founded olt.
Proof.
  assert (Hsome : ∀ a, Acc olt (Some a)).
  { intros a. induction (less_wf a) as [a _ IH]. constructor.
    intros [b|] Hb; [|done]. by apply IH. }
  intros [a|]; [done|]. constructor. intros [b|] Hb; [|done]. apply Hsome.
Qed.

Lemma oltt_wf : well_founded oltt.
Proof. apply wf_clos_trans, olt_wf. Qed.

Lemma oltt_irrefl (x : option cost) : ¬ oltt x x.
Proof.
  intros Hx. induction (oltt_wf x) as [x _ IH]. by apply (IH x).
Qed.

Lemma oltt_known (x y : option cost) : oltt x y → is_Some x.
Proof.
  induction 1 as [x y Hxy|x y z _ IH _ _]; [|done].
  destruct x; [eauto|done].
Qed.

(** [f'] is [f] with the cost of some cells of [L] lowered, or found. *)
Definition improves (L : list cell) (f' f : cell → option cost) : Prop :=
  (∀ c, f' c = f c ∨ (c ∈ L ∧ oltt (f' c) (f c)))
  ∧ ∃ c, c ∈ L ∧ oltt (f' c) (f c).

Lemma improves_trans (L : list cell) (f1 f2 f3 : cell → option cost) :
  improves L f1 f2 → improves L f2 f3 → improves L f1 f3.
Proof.
  intros [Hall1 _] [Hall2 (c & Hc & Hlt)]. split.
  - intros c'. destruct (Hall1 c') as [->|[? Ha]]; [apply Hall2|].
    destruct (Hall2 c') as [<-|[? Hb]]; [by right|].
    right. split; [done|]. by eapply t_trans.
  - exists c. split; [done|].
    destruct (Hall1 c) as [->|[_ Ha]]; [done|]. by eapply t_trans.
Qed.

Lemma improves_wf (L : list cell) : well_founded (improves L).
Proof.
  induction L as [|d L IH].
  - intros f. constructor. intros f' [_ (c & Hc & _)].
    by apply elem_of_nil in Hc.
  - assert (Hd : ∀ x, Acc oltt x → ∀ f, f d = x → Acc (improves (d :: L)) f).
    { intros x Hx. induction Hx as [x _ IHx]. intros f.
      induction (IH f) as [f _ IHf]. intros Hfd. constructor.
      intros f' [Hall (c & Hc & Hlt)].
      destruct (Hall d) as [Heq|[_ Hlow]].
      - apply IHf; [|congruence]. split.
        + intros c'. destruct (Hall c') as [?|[Hc' Hlt']]; [by left|].
          apply elem_of_cons in Hc' as [->|Hc']; [|by right].
          rewrite Heq in Hlt'. by apply oltt_irrefl in Hlt'.
        + exists c. split; [|done].
          apply elem_of_cons in Hc as [->|Hc]; [|done].
          rewrite Heq in Hlt. by apply oltt_irrefl in Hlt.
      - apply (IHx (f' d)); [|done]. by rewrite <- Hfd. }
    intros f. apply (Hd (f d)); [|done]. by apply oltt_wf.
Qed.

Variables (grid : cell) (expanded : gset cell) (offsets : list point).
Variable goal : cell.

Definition costs (s : @search cost) : cell → option cost :=
  fun c => cost_so_far s !! c.

(** Every cost that the search holds is one of the costs of the laws. *)
Definition sounds (s : @search cost) : Prop :=
  ∀ c v, cost_so_far s !! c = Some v → sound v.

Lemma relax_sounds (current : cell) (d : Z * Z) (s s' : search) :
  d ∈ directions → sounds s →
  relax grid expanded offsets goal current d s = Some s' → sounds s'.
Proof.
  intros Hd Hs. unfold relax. cbn zeta.
  generalize ((current.1 + d.1, current.2 + d.2) : cell). intros n.
  destruct (in_bounds grid n); cbn [negb]; [|by intros [= <-]].
  destruct (is_valid_position grid expanded offsets (np_array n)) as [[]|];
    cbn [mbind option_bind negb]; [| by intros [= <-] | done].
  destruct (cost_so_far s !! current) as [c|] eqn:Hc;
    cbn [mbind option_bind]; [|done].
  assert (Hnew : sound (plus c (np_hypot d.1 d.2))).
  { apply sound_step; [by eapply Hs|done]. }
  assert (Hins : sounds {| frontier := frontier s; came_from := came_from s;
                           cost_so_far := <[n := plus c (np_hypot d.1 d.2)]>
                                            (cost_so_far s) |}).
  { intros c' v. cbn [cost_so_far]. rewrite lookup_insert_Some.
    intros [[_ <-]|[_ Hv]]; [done|by eapply Hs]. }
  destruct (cost_so_far s !! n) as [old|].
  - destruct (less _ old); intros [= <-]; [|done].
    intros c' v. apply (Hins c' v).
  - intros [= <-]. intros c' v. apply (Hins c' v).
Qed.

(** One direction either leaves the locals as they are or improves the
    costs. *)
Lemma relax_progress (current : cell) (d : Z * Z) (s s' : search) :
  d ∈ directions → sounds s →
  relax grid expanded offsets goal current d s = Some s' →
  s' = s ∨ improves (grid_cells grid) (costs s') (costs s).
Proof.
  intros Hd Hs. unfold relax. cbn zeta.
  generalize ((current.1 + d.1, current.2 + d.2) : cell). intros n.
  destruct (in_bounds grid n) eqn:Hb; cbn [negb]; [|intros [= <-]; by left].
  destruct (is_valid_position grid expanded offsets (np_array n)) as [[]|];
    cbn [mbind option_bind negb]; [| intros [= <-]; by left | done].
  destruct (cost_so_far s !! current) as [c|] eqn:Hc;
    cbn [mbind option_bind]; [|done].
  assert (Hnew : sound (plus c (np_hypot d.1 d.2))).
  { apply sound_step; [by eapply Hs|done]. }
  assert (Hn : n ∈ grid_cells grid) by by apply elem_of_grid_cells.
  destruct (cost_so_far s !! n) as [old|] eqn:Hold.
  - assert (Hso : sound old) by by eapply Hs.
    destruct (less (plus c (np_hypot d.1 d.2)) old) eqn:Hless;
      intros [= <-]; [right|by left]. split.
    + intros c'. unfold costs. cbn [cost_so_far].
      destruct (decide (c' = n)) as [->|Hne].
      * right. split; [done|]. rewrite lookup_insert_eq, Hold.
        by apply t_step.
      * left. by rewrite lookup_insert_ne by done.
    + exists n. split; [done|]. unfold costs. cbn [cost_so_far].
      rewrite lookup_insert_eq, Hold. by apply t_step.
  - intros [= <-]. right. split.
    + intros c'. unfold costs. cbn [cost_so_far].
      destruct (decide (c' = n)) as [->|Hne].
      * right. split; [done|]. rewrite lookup_insert_eq, Hold.
        by apply t_step.
      * left. by rewrite lookup_insert_ne by done.
    + exists n. split; [done|]. unfold costs. cbn [cost_so_far].
      rewrite lookup_insert_eq, Hold. by apply t_step.
Qed.

Lemma expand_sounds (current : cell) (dirs : list (Z * Z)) (s s' : search) :
  (∀ d, d ∈ dirs → d ∈ directions) → sounds s →
  expand grid expanded offsets goal current dirs s = Some s' → sounds s'.
Proof.
  revert s. induction dirs as [|d dirs IH]; intros s Hdirs Hs.
  - by intros [= <-].
  - rewrite expand_cons.
    destruct (relax grid expanded offsets goal current d s) as [s1|] eqn:Hr;
      [|done]. cbn [mbind option_bind].
    apply IH; [intros d' Hd'; apply Hdirs; by right|].
    eapply relax_sounds; [|done|exact Hr]. apply Hdirs. by left.
Qed.

Lemma expand_progress (current : cell) (dirs : list (Z * Z))
    (s s' : search) :
  (∀ d, d ∈ dirs → d ∈ directions) → sounds s →
  expand grid expanded offsets goal current dirs s = Some s' →
  s' = s ∨ improves (grid_cells grid) (costs s') (costs s).
Proof.
  revert s. induction dirs as [|d dirs IH]; intros s Hdirs Hs.
  - intros [= <-]. by left.
  - rewrite expand_cons.
    destruct (relax grid expanded offsets goal current d s) as [s1|] eqn:Hr;
      [|done]. cbn [mbind option_bind]. intros He.
    assert (Hd : d ∈ directions) by (apply Hdirs; by left).
    assert (Hdirs' : ∀ d', d' ∈ dirs → d' ∈ directions)
      by (intros d' Hd'; apply Hdirs; by right).
    pose proof (relax_sounds _ _ _ _ Hd Hs Hr) as Hs1.
    destruct (relax_progress _ _ _ _ Hd Hs Hr) as [->|H1]; [by apply IH|].
    destruct (IH _ Hdirs' Hs1 He) as [->|H2]; [by right|].
    right. by eapply improves_trans.
Qed.

(** The result of a loop does not change once the fuel suffices. *)
Definition halts {A : Type} (run : nat → result A) : Prop :=
  ∃ N r, r ≠ OutOfFuel ∧ ∀ fuel, (N ≤ fuel)%nat → run fuel = r.

Lemma heappop_cons (x : @entry cost) (h : list entry) :
  ∃ y rest, heappop (x :: h) = Some (y, rest).
Proof.
  simpl. destruct (heappop h) as [[z r]|]; [destruct (entry_ltb z x)|]; eauto.
Qed.

Lemma search_loop_halts (s : search) :
  sounds s →
  halts (fun fuel => search_loop grid expanded offsets goal fuel s).
Proof.
  remember (costs s) as f eqn:Hf. revert s Hf.
  induction (improves_wf (grid_cells grid) f) as [f _ IHf].
  intros s Hf.
  remember (length (frontier s)) as n eqn:Hn. revert s Hf Hn.
  induction n as [|n IHn]; intros s Hf Hn Hs.
  - exists 0%nat, (Ok s). split; [done|]. intros fuel _.
    rewrite search_loop_unfold.
    destruct (frontier s); [done|discriminate].
  - destruct (frontier s) as [|x h] eqn:Hfr; [discriminate|].
    destruct (heappop_cons x h) as ([prio current] & rest & Hpop).
    assert (Hlen : length rest = n).
    { apply heappop_Some in Hpop as [_ Hlen]. simpl in *. lia. }
    set (s1 := {| frontier := rest; came_from := came_from s;
                  cost_so_far := cost_so_far s |}).
    destruct (decide (current = goal)) as [Hg|Hg].
    { exists 0%nat, (Ok s1). split; [done|]. intros fuel _.
      rewrite search_loop_unfold, Hfr, Hpop. cbn zeta.
      by rewrite decide_True. }
    destruct (expand grid expanded offsets goal current directions s1)
      as [s2|] eqn:He.
    2:{ exists 1%nat, Raised. split; [done|]. intros [|fuel] Hfuel; [lia|].
        rewrite search_loop_unfold, Hfr, Hpop. cbn zeta.
        rewrite decide_False by done. fold s1. by rewrite He. }
    assert (Hs1 : sounds s1) by exact Hs.
    pose proof (expand_sounds _ _ _ _ (fun d Hd => Hd) Hs1 He) as Hs2.
    assert (Hnext : halts (fun fuel =>
                      search_loop grid expanded offsets goal fuel s2)).
    { destruct (expand_progress _ _ _ _ (fun d Hd => Hd) Hs1 He)
        as [->|Himp].
      - apply IHn; [done|by rewrite <- Hlen|done].
      - apply (IHf (costs s2)); [|done|done]. by rewrite Hf. }
    destruct Hnext as (N & r & Hr & Hrun).
    exists (S N), r. split; [done|]. intros [|fuel] Hfuel; [lia|].
    rewrite search_loop_unfold, Hfr, Hpop. cbn zeta.
    rewrite decide_False by done. fold s1. rewrite He. apply Hrun. lia.
Qed.

End Termination.

Section Halting.

Context {cost : Type} `{CostOps cost} `{!CostLaws cost}.
Variables (grid : cell) (expanded : gset cell) (offsets : list point).
Variables (start goal : cell).

(** *** The order of the costs *)

Lemma less_irrefl (a : cost) : sound a → less a a = false.
Proof.
  intros Ha. destruct (less a a) eqn:Hl; [|done]. exfalso.
  induction (less_wf a) as [a _ IH]. by apply (IH a).
Qed.

Lemma less_asym (a b : cost) :
  sound a → sound b → less a b = true → less b a = false.
Proof.
  intros Ha Hb Hab. destruct (less b a) eqn:Hba; [|done]. exfalso.
  revert b Hb Hab Hba. induction (less_wf a) as [a _ IH].
  intros b Hb Hab Hba. by apply (IH b (conj Hb (conj Ha Hba)) Hb a).
Qed.

(** [a] is not above [b]. *)
Definition le (a b : cost) : Prop := less b a = false.

Lemma le_trans (a b c : cost) :
  sound a → sound b → sound c → le a b → le b c → le a c.
Proof.
  unfold le. intros Ha Hb Hc Hab Hbc.
  destruct (less c a) eqn:Hca; [|done].
  destruct (less_cotrans c b a Hc Hb Ha Hca); congruence.
Qed.

Lemma less_le_trans (a b c : cost) :
  sound a → sound b → sound c → less a b = true → le b c → less a c = true.
Proof.
  unfold le. intros Ha Hb Hc Hab Hbc.
  destruct (less_cotrans a c b Ha Hc Hb Hab); congruence.
Qed.

(** *** The predecessor links form a forest *)

(** The walk from [c] along the links of [cf] ends on a cell without a
    predecessor. *)
Inductive grounded (cf : gmap cell (option cell)) : cell → Prop :=
  | grounded_root (c : cell) : cf !! c = Some None → grounded cf c
  | grounded_step (c p : cell) :
      cf !! c = Some (Some p) → grounded cf p → grounded cf c.

(** What holds of the links and the costs all along the search: the two
    dicts have the same keys, the costs are costs of the laws, a predecessor
    is not dearer than the cell it leads to, and the walk back from every
    known cell ends. *)
Record tree_inv (s : @search cost) : Prop := {
  tree_keys : ∀ c, is_Some (came_from s !! c) ↔ is_Some (cost_so_far s !! c);
  tree_sound : sounds s;
  tree_link : ∀ c p, came_from s !! c = Some (Some p) →
                ∃ vc vp, cost_so_far s !! c = Some vc
                         ∧ cost_so_far s !! p = Some vp ∧ le vp vc;
  tree_grounded : ∀ c, is_Some (came_from s !! c) → grounded (came_from s) c
}.

Lemma direction_moves (current : cell) (d : Z * Z) :
  d ∈ directions → ((current.1 + d.1, current.2 + d.2) : cell) ≠ current.
Proof.
  intros Hd Heq. destruct current as [x y]. simpl in Heq.
  injection Heq as Hx Hy. unfold directions in Hd.
  repeat (apply elem_of_cons in Hd as [->|Hd]); simpl in *; try lia.
  by apply elem_of_nil in Hd.
Qed.

(** The assignment [cost_so_far[n] = new; came_from[n] = current] keeps
    the forest, when [new] is the cost of [current] plus a step and is below
    the cost that [n] had. *)
Lemma assign_tree (s : search) (current n : cell) (vcur new : cost)
    (fr : list entry) :
  tree_inv s →
  n ≠ current →
  cost_so_far s !! current = Some vcur →
  sound new → le vcur new →
  match cost_so_far s !! n with
  | Some old => less new old = true
  | None => True
  end →
  tree_inv {| frontier := fr;
              came_from := <[n := Some current]> (came_from s);
              cost_so_far := <[n := new]> (cost_so_far s) |}.
Proof.
  intros [Hkeys Hsound Hlink Hground] Hne Hcur Hnew Hstep Hold.
  assert (Hscur : sound vcur) by by eapply Hsound.
  (* a cell that is not dearer than [current] is not [n] *)
  assert (Hnot : ∀ x vx, cost_so_far s !! x = Some vx → le vx vcur → x ≠ n).
  { intros x vx Hx Hle ->. rewrite Hx in Hold.
    assert (Hsx : sound vx) by by eapply Hsound.
    pose proof (le_trans vx vcur new Hsx Hscur Hnew Hle Hstep) as Hcontra.
    unfold le in Hcontra. congruence. }
  set (cf' := <[n := Some current]> (came_from s)).
  assert (Hbelow : ∀ x, grounded (came_from s) x →
            ∀ vx, cost_so_far s !! x = Some vx → le vx vcur →
                  grounded cf' x).
  { intros x Hx. induction Hx as [x Hroot|x p Hxp _ IH]; intros vx Hvx Hle.
    - apply grounded_root. unfold cf'.
      rewrite lookup_insert_ne by (apply not_eq_sym; by eapply Hnot).
      done.
    - destruct (Hlink _ _ Hxp) as (vc & vp & Hvc & Hvp & Hpc).
      replace vc with vx in * by congruence.
      apply (grounded_step cf' x p).
      + unfold cf'.
        rewrite lookup_insert_ne by (apply not_eq_sym; by eapply Hnot).
        done.
      + apply (IH vp Hvp).
        apply (le_trans vp vx vcur); try done; by eapply Hsound. }
  assert (Hgcur : grounded cf' current).
  { apply (Hbelow current) with (vx := vcur); try done.
    - apply Hground, Hkeys. eauto.
    - by apply less_irrefl. }
  assert (Hgn : grounded cf' n).
  { apply (grounded_step cf' n current); [|done].
    unfold cf'. by rewrite lookup_insert_eq. }
  unfold cf' in *. clear cf'.
  split; cbn [came_from cost_so_far].
  - intros c. destruct (decide (c = n)) as [->|Hc].
    + rewrite !lookup_insert_eq. split; intros _; by eexists.
    + rewrite !lookup_insert_ne by (by apply not_eq_sym). apply Hkeys.
  - intros c v. cbn [cost_so_far]. rewrite lookup_insert_Some.
    intros [[_ <-]|[_ Hv]]; [done|by eapply Hsound].
  - intros c p. rewrite lookup_insert_Some.
    intros [[<- [= <-]]|[Hc Hp]].
    + exists new, vcur. rewrite lookup_insert_eq, lookup_insert_ne by done.
      done.
    + destruct (Hlink _ _ Hp) as (vc & vp & Hvc & Hvp & Hpc).
      rewrite (lookup_insert_ne _ n c) by done.
      destruct (decide (p = n)) as [->|Hpn].
      * exists vc, new. rewrite lookup_insert_eq. split_and!; try done.
        rewrite Hvp in Hold.
        assert (Hsvc : sound vc) by by eapply Hsound.
        assert (Hsvp : sound vp) by by eapply Hsound.
        unfold le. destruct (less vc new) eqn:Hvn; [|done].
        destruct (less_cotrans vc vp new Hsvc Hsvp Hnew Hvn) as [H1|H1].
        -- unfold le in Hpc. congruence.
        -- pose proof (less_asym _ _ Hnew Hsvp Hold). congruence.
      * exists vc, vp. by rewrite lookup_insert_ne.
  - intros c Hknown.
    assert (Hall : ∀ x, grounded (came_from s) x →
              grounded (<[n := Some current]> (came_from s)) x).
    { intros x Hx. induction Hx as [x Hroot|x p Hxp _ IH].
      - destruct (decide (x = n)) as [->|Hxn]; [done|].
        apply grounded_root. by rewrite lookup_insert_ne by (by apply not_eq_sym).
      - destruct (decide (x = n)) as [->|Hxn]; [done|].
        apply (grounded_step _ x p); [|done].
        by rewrite lookup_insert_ne by (by apply not_eq_sym). }
    destruct (decide (c = n)) as [->|Hc]; [done|].
    apply Hall, Hground.
    by rewrite lookup_insert_ne in Hknown by (by apply not_eq_sym).
Qed.

Lemma relax_tree (current : cell) (d : Z * Z) (s s' : search) :
  d ∈ directions → tree_inv s →
  relax grid expanded offsets goal current d s = Some s' → tree_inv s'.
Proof.
  intros Hd Htree. unfold relax. cbn zeta.
  pose proof (direction_moves current d Hd) as Hne. revert Hne.
  generalize ((current.1 + d.1, current.2 + d.2) : cell). intros n Hne.
  destruct (in_bounds grid n); cbn [negb]; [|by intros [= <-]].
  destruct (is_valid_position grid expanded offsets (np_array n)) as [[]|];
    cbn [mbind option_bind negb]; [| by intros [= <-] | done].
  destruct (cost_so_far s !! current) as [c|] eqn:Hc;
    cbn [mbind option_bind]; [|done].
  assert (Hsc : sound c) by by eapply (tree_sound s).
  pose proof (sound_step c d Hsc Hd) as Hnew.
  pose proof (step_weak c d Hsc Hd) as Hstep.
  pose proof (fun fr => assign_tree s current n c _ fr Htree Hne Hc Hnew Hstep)
    as Hassign.
  destruct (cost_so_far s !! n) as [old|] eqn:Hold.
  - destruct (less _ old) eqn:Hless; intros [= <-]; [|done].
    by apply Hassign.
  - intros [= <-]. by apply Hassign.
Qed.

Lemma expand_tree (current : cell) (dirs : list (Z * Z)) (s s' : search) :
  (∀ d, d ∈ dirs → d ∈ directions) → tree_inv s →
  expand grid expanded offsets goal current dirs s = Some s' → tree_inv s'.
Proof.
  revert s. induction dirs as [|d dirs IH]; intros s Hdirs Htree.
  - by intros [= <-].
  - rewrite expand_cons.
    destruct (relax grid expanded offsets goal current d s) as [s1|] eqn:Hr;
      [|done]. cbn [mbind option_bind].
    apply IH; [intros d' Hd'; apply Hdirs; by right|].
    eapply relax_tree; [|done|exact Hr]. apply Hdirs. by left.
Qed.

Lemma search_loop_tree (fuel : nat) (s s' : search) :
  tree_inv s →
  search_loop grid expanded offsets goal fuel s = Ok s' → tree_inv s'.
Proof.
  revert s. induction fuel as [|fuel IH]; intros s Htree;
    rewrite search_loop_unfold;
    destruct (heappop (frontier s)) as [[[prio current] rest]|];
    cbn zeta.
  - destruct (decide (current = goal)); [|done].
    intros [= <-]. by destruct Htree.
  - by intros [= <-].
  - destruct (decide (current = goal)).
    { intros [= <-]. by destruct Htree. }
    destruct (expand grid expanded offsets goal current directions _)
      as [s2|] eqn:He; [|done].
    apply IH. refine (expand_tree _ _ _ _ (fun d Hd => Hd) _ He).
    by destruct Htree.
  - by intros [= <-].
Qed.

(** The locals at the start of the search. *)
Lemma initial_tree :
  tree_inv {| frontier := [(zero, start)];
              came_from := {[start := None]};
              cost_so_far := {[start := zero]} |}.
Proof.
  split; cbn [came_from cost_so_far].
  - intros c. by rewrite !lookup_singleton_is_Some.
  - intros c v. cbn [cost_so_far]. rewrite lookup_singleton_Some.
    intros [_ <-]. apply sound_zero.
  - intros c p. rewrite lookup_singleton_Some. intros [_ [=]].
  - intros c. rewrite lookup_singleton_is_Some. intros <-.
    apply grounded_root. by rewrite lookup_singleton_eq.
Qed.

(** The walk back ends: the links lead to a cell without predecessor. *)
Lemma walk_back_halts (s : search) (curr : option cell) (acc : list point) :
  tree_inv s →
  ∃ N path, ∀ fuel, (N ≤ fuel)%nat →
    walk_back fuel (came_from s) curr acc = Ok path.
Proof.
  intros Htree. destruct curr as [c|].
  2:{ exists 0%nat, acc. by intros [|fuel] _. }
  destruct (came_from s !! c) as [prev|] eqn:Hc.
  2:{ exists 0%nat, acc. intros [|fuel] _; simpl; by rewrite Hc. }
  assert (Hg : grounded (came_from s) c).
  { apply (tree_grounded s Htree). rewrite Hc. eauto. }
  clear Hc prev. revert acc.
  induction Hg as [c Hroot|c p Hcp _ IH]; intros acc.
  - exists 1%nat, (acc ++ [np_array c]). intros [|fuel] Hfuel; [lia|].
    simpl. rewrite Hroot. by destruct fuel.
  - destruct (IH (acc ++ [np_array c])) as (N & path & Hrun).
    exists (S N), path. intros [|fuel] Hfuel; [lia|]. simpl. rewrite Hcp.
    apply Hrun. lia.
Qed.

(** *** No cell twice *)

(** The number of links from [c] to the cell without predecessor. *)
Inductive at_depth (cf : gmap cell (option cell)) : cell → nat → Prop :=
  | at_depth_root (c : cell) : cf !! c = Some None → at_depth cf c 0
  | at_depth_step (c p : cell) (k : nat) :
      cf !! c = Some (Some p) → at_depth cf p k → at_depth cf c (S k).

Lemma grounded_depth (cf : gmap cell (option cell)) (c : cell) :
  grounded cf c → ∃ k, at_depth cf c k.
Proof.
  induction 1 as [c Hroot|c p Hcp _ [k IH]].
  - exists 0%nat. by constructor.
  - exists (S k). by econstructor.
Qed.

Lemma at_depth_unique (cf : gmap cell (option cell)) (c : cell) (j k : nat) :
  at_depth cf c j → at_depth cf c k → j = k.
Proof.
  intros Hj. revert k. induction Hj as [c Hroot|c p j Hcp _ IH]; intros k Hk.
  - inversion Hk; subst; [done|congruence].
  - inversion Hk as [|? q k' Hcq Hq]; subst; [congruence|].
    replace q with p in * by congruence. f_equal. by apply IH.
Qed.

(** The walk back goes through no cell twice: the depths go down. *)
Lemma trail_depth (cf : gmap cell (option cell)) (c : cell) (k : nat)
    (cells : list cell) :
  at_depth cf c k → trail cf (Some c) cells →
  NoDup cells ∧ ∀ x, x ∈ cells → ∃ j, (j ≤ k)%nat ∧ at_depth cf x j.
Proof.
  intros Hk. revert cells.
  induction Hk as [c Hroot|c p k Hcp Hp IH]; intros cells Ht.
  - inversion Ht as [|? Hnone|? prev rest Hprev Hrest]; subst;
      [congruence|].
    replace prev with (@None cell) in * by congruence.
    inversion Hrest; subst. split.
    + apply NoDup_singleton.
    + intros x ->%list_elem_of_singleton. exists 0%nat.
      split; [done|by constructor].
  - inversion Ht as [|? Hnone|? prev rest Hprev Hrest]; subst;
      [congruence|].
    replace prev with (Some p) in * by congruence.
    destruct (IH rest Hrest) as [Hnd Hall]. split.
    + constructor; [|done]. intros Hin.
      destruct (Hall c Hin) as (j & Hj & Hcj).
      pose proof (at_depth_unique cf c j (S k) Hcj
                    (at_depth_step cf c p k Hcp Hp)). lia.
    + intros x [->|Hx]%elem_of_cons.
      * exists (S k). split; [done|by econstructor].
      * destruct (Hall x Hx) as (j & Hj & Hxj). exists j. split; [lia|done].
Qed.

Lemma tree_trail_NoDup (s : search) (curr : option cell)
    (cells : list cell) :
  tree_inv s → trail (came_from s) curr cells → NoDup cells.
Proof.
  intros Htree Ht. destruct curr as [c|].
  2:{ inversion Ht; subst. constructor. }
  destruct (came_from s !! c) as [prev|] eqn:Hc.
  2:{ rewrite (trail_unknown_nil _ _ _ Ht Hc). constructor. }
  destruct (grounded_depth (came_from s) c) as [k Hk].
  { apply (tree_grounded s Htree). rewrite Hc. eauto. }
  by destruct (trail_depth _ _ _ _ Hk Ht).
Qed.

(** *** The search raises nothing when the full-body check does not *)

Hypothesis check_total : ∀ c,
  in_bounds grid c = true →
  is_Some (is_valid_position grid expanded offsets (np_array c)).

Lemma relax_total (current : cell) (d : Z * Z) (s : search) :
  is_Some (cost_so_far s !! current) →
  is_Some (relax grid expanded offsets goal current d s).
Proof.
  intros [c Hc]. unfold relax. cbn zeta.
  generalize ((current.1 + d.1, current.2 + d.2) : cell). intros n.
  destruct (in_bounds grid n) eqn:Hb; cbn [negb]; [|eauto].
  destruct (check_total n Hb) as [[] ->]; cbn [mbind option_bind negb];
    [|eauto].
  rewrite Hc. cbn [mbind option_bind].
  match goal with |- is_Some (if ?b then _ else _) => destruct b end; eauto.
Qed.

Lemma expand_total (current : cell) (dirs : list (Z * Z)) (s : search) :
  (∀ d, d ∈ dirs → d ∈ directions) →
  search_inv grid expanded offsets start s →
  is_Some (cost_so_far s !! current) →
  is_Some (expand grid expanded offsets goal current dirs s).
Proof.
  revert s. induction dirs as [|d dirs IH]; intros s Hdirs Hinv Hcur.
  - simpl. eauto.
  - rewrite expand_cons.
    destruct (relax_total current d s Hcur) as [s1 Hr]. rewrite Hr.
    cbn [mbind option_bind].
    destruct (relax_inv grid expanded offsets start goal _ _ _ _
                (Hdirs d (list_elem_of_here _ _)) Hinv Hcur Hr) as (Hinv1 & (Hdom & _) & _).
    apply IH; [intros d' Hd'; apply Hdirs; by right|done|by apply Hdom].
Qed.

Lemma search_loop_no_raise (fuel : nat) (s : search) :
  search_inv grid expanded offsets start s →
  closed_inv grid expanded offsets s →
  search_loop grid expanded offsets goal fuel s ≠ Raised.
Proof.
  revert s. induction fuel as [|fuel IH]; intros s Hinv Hclosed;
    rewrite search_loop_unfold;
    destruct (heappop (frontier s)) as [[[prio current] rest]|] eqn:Hpop;
    cbn zeta.
  - by destruct (decide (current = goal)).
  - done.
  - destruct (decide (current = goal)); [done|].
    destruct (pop_inv _ _ _ _ _ _ _ Hinv Hpop) as [Hinv1 Hcur].
    cbn [snd] in Hcur.
    destruct (expand_total current directions _ (fun d Hd => Hd) Hinv1 Hcur)
      as [s2 He].
    rewrite He.
    destruct (turn_inv _ _ _ _ _ _ _ _ _ _ Hinv Hclosed Hpop He).
    by apply IH.
  - done.
Qed.

End Halting.

(** ** [a_star] returns *)

Section PlannerHalting.

Context {cost : Type} `{CostOps cost} `{!CostLaws cost}.

(** With a lawful cost arithmetic and a full-body check that raises
    nothing on the grid, [a_star] returns a path. *)
Lemma a_star_returns (w : world) (start goal : cell)
    (obs : gmap cell obstacle_type) (grid : cell) (offs : anchors) :
  relative_offsets (initial_positions w) (center_id w) = Some offs →
  (∀ c, in_bounds grid c = true →
        is_Some (is_valid_position grid
                   (inflate ∅ obs (current_shape_type w) (safety_margin w) grid)
                   offs.*2 (np_array c))) →
  ∃ N path, ∀ fuel, (N ≤ fuel)%nat →
    (a_star fuel w start goal obs grid).2 = Ok path.
Proof.
  intros Hoffs Htotal.
  set (expanded := inflate ∅ obs (current_shape_type w) (safety_margin w)
                     grid) in *.
  set (s0 := {| frontier := [(zero, start)];
                came_from := {[start := None]};
                cost_so_far := {[start := zero]} |} : @search cost).
  assert (Hinv0 : search_inv grid expanded offs.*2 start s0).
  { split; unfold s0; cbn [came_from cost_so_far frontier].
    - intros c. rewrite !lookup_singleton_is_Some. done.
    - intros c p'. rewrite lookup_singleton_Some. intros [_ [=]].
    - intros c. rewrite lookup_singleton_Some. by intros [<- _].
    - intros e ->%list_elem_of_singleton. cbn [snd].
      by rewrite lookup_singleton_eq.
    - by rewrite lookup_singleton_eq.
    - intros c. rewrite lookup_singleton_is_Some. intros <-. apply rtc_refl. }
  assert (Hclosed0 : closed_inv grid expanded offs.*2 s0).
  { intros c. unfold s0. cbn [cost_so_far frontier].
    rewrite lookup_singleton_is_Some. intros <-. left. exists zero. by left. }
  pose proof (initial_tree start : tree_inv s0) as Htree0.
  destruct (search_loop_halts grid expanded offs.*2 goal s0
              (tree_sound s0 Htree0)) as (N1 & r & Hr & Hrun).
  destruct r as [s| |]; [| |done].
  2:{ exfalso.
      apply (search_loop_no_raise grid expanded offs.*2 start goal Htotal
               N1 s0 Hinv0 Hclosed0).
      by apply Hrun. }
  assert (Htree : tree_inv s).
  { eapply (search_loop_tree grid expanded offs.*2 goal N1 s0);
      [exact Htree0|by apply Hrun]. }
  destruct (walk_back_halts s (Some goal) [] Htree) as (N2 & path & Hwalk).
  exists (N1 `max` N2)%nat, (rev path). intros fuel Hfuel.
  unfold a_star. cbn [snd]. rewrite Hoffs.
  change (inflate (expanded_obstacles w) obs (current_shape_type w)
            (safety_margin w) grid) with expanded.
  fold s0. rewrite Hrun by lia. rewrite Hwalk by lia. done.
Qed.

End PlannerHalting.

(** The fixed-point arithmetic obeys the laws, every cost being one that
    the search can meet. *)
#[global] Instance fixed_cost_laws : CostLaws N.
Proof.
  refine {| sound := fun _ => True |}.
  - done.
  - done.
  - apply (wf_projected (<)%nat N.to_nat); [|apply lt_wf].
    intros a b (_ & _ & Hab). simpl in Hab. apply N.ltb_lt in Hab. lia.
  - intros a b c _ _ _ Hac. simpl in *. apply N.ltb_lt in Hac.
    destruct (N.ltb a b) eqn:Hab; [by left|right].
    apply N.ltb_ge in Hab. apply N.ltb_lt. lia.
  - intros a d _ Hd. simpl. apply N.ltb_ge. lia.
Defined.

(** The full-body check raises nothing on a grid when it raises nothing
    on each of its cells. *)
Lemma check_total_cells (grid : cell) (expanded : gset cell)
    (offsets : list point) :
  forallb (fun c => bool_decide (is_Some (is_valid_position grid expanded
                                            offsets (np_array c))))
          (grid_cells grid) = true →
  ∀ c, in_bounds grid c = true →
       is_Some (is_valid_position grid expanded offsets (np_array c)).
Proof.
  intros Hall c Hc. rewrite forallb_forall in Hall.
  apply elem_of_grid_cells, list_elem_of_In in Hc.
  apply Hall in Hc. by apply bool_decide_eq_true in Hc.
Qed.

(** ** The path that [a_star] returns *)

Section PathFacts.

Context {cost : Type} `{CostOps cost}.

Lemma a_star_same_cell (fuel : nat) (w : world) (start : cell)
    (obs : gmap cell obstacle_type) (grid : cell) (offs : anchors) :
  relative_offsets (initial_positions w) (center_id w) = Some offs →
  (a_star (S fuel) w start start obs grid).2 = Ok [np_array start].
Proof.
  intros Hoffs. unfold a_star. cbn [snd]. rewrite Hoffs.
  rewrite search_loop_unfold. cbn [frontier heappop]. cbn zeta.
  rewrite decide_True by done. cbn [came_from walk_back].
  rewrite lookup_singleton_eq. by destruct fuel.
Qed.

Lemma a_star_raises_without_offsets (fuel : nat) (w : world)
    (start goal : cell) (obs : gmap cell obstacle_type) (grid : cell) :
  relative_offsets (initial_positions w) (center_id w) = None →
  (a_star fuel w start goal obs grid).2 = Raised.
Proof. intros Hoffs. unfold a_star. cbn [snd]. by rewrite Hoffs. Qed.

Lemma reachable_in_bounds (grid : cell) (expanded : gset cell)
    (offsets : list point) (start c : cell) :
  reachable grid expanded offsets start c →
  c = start ∨ in_bounds grid c = true.
Proof.
  intros Hr. apply rtc_inv_r in Hr as [->|(b & _ & _ & Hb & _)]; auto.
Qed.

End PathFacts.







(** C10: in every non-empty path that [a_star] returns, every cell but
    the first is on the grid and passes the full-body check against the
    inflated set of that call; the first cell is the start, which is never
    checked: from a start whose own footprint is invalid the search still
    returns a non-empty path. *)
Theorem a_star_path_checked :
  (∀ (cost : Type) (ops : CostOps cost) (fuel : nat) (w : world)
     (start goal : cell) (obs : gmap cell obstacle_type) (grid : cell)
     (path : list point),
     (a_star fuel w start goal obs grid).2 = Ok path →
     path ≠ [] →
     ∃ offs cells,
       relative_offsets (initial_positions w) (center_id w) = Some offs
       ∧ path = map np_array cells
       ∧ head cells = Some start
       ∧ last cells = Some goal
       ∧ ∀ i c, cells !! S i = Some c →
           in_bounds grid c = true
           ∧ valid_center grid (a_star fuel w start goal obs grid).1
               offs.*2 c)
  ∧ (∃ path,
       is_valid_position (40, 40)
         (a_star (H := f64_cost) 10 initial_world (0, 0) (3, 1) ∅ (40, 40)).1
         dog_offsets.*2 (np_array (0, 0)) = Some false
       ∧ (a_star (H := f64_cost) 10 initial_world (0, 0) (3, 1) ∅ (40, 40)).2
         = Ok path
       ∧ path ≠ []).
Proof.
  split.
  - intros cost ops fuel w start goal obs grid path Hrun Hne.
    destruct (relative_offsets (initial_positions w) (center_id w))
      as [offs|] eqn:Hoffs.
    2:{ rewrite a_star_raises_without_offsets in Hrun by done. done. }
    destruct (a_star_sound fuel w start goal obs grid offs path Hoffs Hrun)
      as (cells & -> & [[-> _]|[_ (Hhead & Hlast & Hlink)]]); [done|].
    exists offs, cells. split_and!; try done.
    intros i c Hc.
    destruct (lookup_lt_is_Some_2 cells i) as [a Ha].
    { apply lookup_lt_Some in Hc. lia. }
    destruct (Hlink i a c Ha Hc) as (_ & Hb & Hv). done.
  - eexists. split_and!.
    + vm_compute. reflexivity.
    + vm_compute. reflexivity.
    + discriminate.
Qed.

(** ** Two facts about paths on a grid without obstacles *)

(** Two cells that follow each other in a returned path are neighbours:
    they differ by one of the eight [directions]. *)
Lemma a_star_king_moves {cost : Type} `{CostOps cost} (fuel : nat)
    (w : world) (start goal : cell) (obs : gmap cell obstacle_type)
    (grid : cell) (path : list point) :
  (a_star fuel w start goal obs grid).2 = Ok path →
  ∃ cells, path = map np_array cells
           ∧ ∀ i a b, cells !! i = Some a → cells !! S i = Some b →
                      king_move a b.
Proof.
  intros Hrun.
  destruct (relative_offsets (initial_positions w) (center_id w))
    as [offs|] eqn:Hoffs.
  2:{ rewrite a_star_raises_without_offsets in Hrun by done. done. }
  destruct (a_star_sound fuel w start goal obs grid offs path Hoffs Hrun)
    as (cells & -> & [[-> _]|[_ (_ & _ & Hlink)]]).
  - exists []. split; [done|]. intros i a b Ha. by destruct i.
  - exists cells. split; [done|]. intros i a b Ha Hb.
    by destruct (Hlink i a b Ha Hb).
Qed.

(** On a grid of six by six cells without obstacles, the dog centered on
    [(1, 1)] finds no path to the corner [(0, 0)]: the corner is on the grid,
    but the dog's anchors would leave the grid there. *)
Example a_star_corner_out_of_reach :
  in_bounds (6, 6) (0, 0) = true
  ∧ (a_star (H := f64_cost) 40 initial_world (1, 1) (0, 0) ∅ (6, 6)).2
    = Ok [].
Proof. split; vm_compute; reflexivity. Qed.

(** ** The length of a returned path *)

Lemma king_move_step_kind (a b : cell) :
  king_move a b → is_Some (step_kind a b).
Proof.
  intros (d & Hd & ->). unfold step_kind. cbn [fst snd].
  unfold directions in Hd.
  repeat (apply elem_of_cons in Hd as [->|Hd]);
    [..|by apply elem_of_nil in Hd]; cbn [fst snd];
    repeat case_decide; eauto; lia.
Qed.

(** A list of cells linked by moves of a king has its moves counted, and
    from its first cell to its last there are at least as many moves as the
    king needs. *)
Lemma moves_bound (cells : list cell) (s g : cell) :
  (∀ i a b, cells !! i = Some a → cells !! S i = Some b → king_move a b) →
  head cells = Some s → last cells = Some g →
  ∃ x d, moves cells = Some (x, d)
         ∧ Z.max (Z.abs (g.1 - s.1)) (Z.abs (g.2 - s.2))
           ≤ Z.of_nat x + Z.of_nat d
         ∧ Z.abs (g.1 - s.1) + Z.abs (g.2 - s.2)
           ≤ Z.of_nat x + 2 * Z.of_nat d.
Proof.
  revert s. induction cells as [|a rest IH]; intros s Hlinks Hhead Hlast;
    [done|].
  injection Hhead as ->.
  destruct rest as [|b rest'].
  - injection Hlast as ->. exists 0%nat, 0%nat. split; [done|]. lia.
  - destruct (IH b) as (x & d & Hm & H1 & H2).
    + intros i u v Hu Hv. apply (Hlinks (S i) u v Hu Hv).
    + done.
    + by rewrite last_cons_cons in Hlast.
    + pose proof (Hlinks 0%nat s b eq_refl eq_refl) as Hking.
      destruct (king_move_step_kind _ _ Hking) as [k Hk].
      change (moves (s :: b :: rest'))
        with (k' ← step_kind s b; n ← moves (b :: rest');
              Some (if k' : bool then (n.1, S n.2) else (S n.1, n.2))).
      rewrite Hk, Hm. cbn [mbind option_bind fst snd].
      unfold step_kind in Hk. cbn zeta in Hk.
      destruct k; repeat case_decide; try discriminate;
        eexists _, _; (split; [reflexivity|]); lia.
Qed.


Lemma shortest_check_spec (start goal : cell) :
  shortest_check start goal = true → ∃ cells, shortest_run start goal cells.
Proof.
  unfold shortest_check, shortest_run.
  destruct (a_star 100 initial_world start goal ∅ (6, 6)).2 as [path| |];
    [|done|done].
  destruct (path_cells path) as [cells|]; [|done].
  intros [Hpath Hm]%andb_true_iff. apply bool_decide_eq_true in Hpath.
  exists cells. split; [by rewrite Hpath|].
  apply orb_true_iff in Hm as [Hm|Hm]; apply bool_decide_eq_true in Hm; auto.
Qed.


(** ** The full-body check of a body of one anchor *)

(** One high wall at [(5, 5)], inflated by one cell on a grid of ten by
    ten: the check rejects the nine cells of the box around the wall and
    accepts every other cell of the grid. *)
Example one_anchor_box :
  ∀ c, in_bounds (10, 10) c = true →
    is_valid_position (10, 10) one_wall_inflated one_anchor_offsets.*2
      (np_array c)
    = Some (negb (bool_decide (4 ≤ c.1 ≤ 6 ∧ 4 ≤ c.2 ≤ 6))).
Proof.
  assert (Hall : forallb (fun c : cell =>
            bool_decide
              (is_valid_position (10, 10) one_wall_inflated
                 one_anchor_offsets.*2 (np_array c)
               = Some (negb (bool_decide (4 ≤ c.1 ≤ 6 ∧ 4 ≤ c.2 ≤ 6)))))
            (grid_cells (10, 10)) = true) by (vm_compute; reflexivity).
  intros c Hc. rewrite forallb_forall in Hall.
  apply elem_of_grid_cells, list_elem_of_In in Hc.
  apply Hall in Hc. by apply bool_decide_eq_true in Hc.
Qed.

(** ** Cells as binary64 numbers *)

Lemma digits2_pos_size (p : positive) : digits2_pos p = Pos.size p.
Proof. induction p; simpl; congruence. Qed.

Lemma iter_xO_mul (p d : positive) :
  Zpos (Pos.iter xO p d) = Zpos p * Z.pow_pos 2 d.
Proof.
  unfold Z.pow_pos. induction d as [|d IH] using Pos.peano_ind.
  - simpl. lia.
  - rewrite !Pos.iter_succ, Pos2Z.inj_xO, IH. lia.
Qed.

Lemma digits2_pos_iter_xO (p d : positive) :
  digits2_pos (Pos.iter xO p d) = (digits2_pos p + d)%positive.
Proof.
  induction d as [|d IH] using Pos.peano_ind.
  - simpl. lia.
  - rewrite Pos.iter_succ. simpl. rewrite IH. lia.
Qed.

Lemma digits2_pos_bound (p : positive) :
  Zpos p < 2 ^ 53 → Zpos (digits2_pos p) ≤ 53.
Proof.
  intros Hp. rewrite digits2_pos_size.
  pose proof (Pos.size_le p) as Hle.
  apply Pos2Z.pos_le_pos in Hle. rewrite Pos2Z.inj_pow in Hle.
  destruct (Z_le_gt_dec (Zpos (Pos.size p)) 53) as [?|Hgt]; [done|].
  exfalso.
  assert (2 ^ 54 ≤ 2 ^ Zpos (Pos.size p)) by (apply Z.pow_le_mono_r; lia).
  change (2 ^ 54) with (2 * 2 ^ 53) in *. lia.
Qed.

(** A number of at most 53 bits is a binary64 number: its mantissa is the
    number shifted to 53 bits. *)
Lemma binary_round_small (s : bool) (p : positive) :
  Zpos (digits2_pos p) ≤ 53 →
  ∃ m e, binary_round F64.prec F64.emax s p 0 = S754_finite s m e
         ∧ -52 ≤ e ≤ 0 ∧ Zpos m = Zpos p * 2 ^ (- e).
Proof.
  intros Hd. unfold binary_round, F64.prec, F64.emax.
  assert (Haux : ∀ m e, Zpos (digits2_pos m) + e = 53 + e → -52 ≤ e ≤ 0 →
            binary_round_aux 53 1024 s (Zpos m) e loc_Exact
            = S754_finite s m e).
  { intros m e Hm He. unfold binary_round_aux, shr_fexp, fexp, emin.
    cbn [Zdigits2 shr_record_of_loc].
    replace (Z.max (Zpos (digits2_pos m) + e - 53) (3 - 1024 - 53) - e)
      with 0 by lia.
    cbn [shr shr_m loc_of_shr_record round_nearest_even Zdigits2
         shr_record_of_loc].
    replace (Z.max (Zpos (digits2_pos m) + e - 53) (3 - 1024 - 53) - e)
      with 0 by lia.
    cbn [shr shr_m].
    destruct (Z.leb_spec e (1024 - 53)); [done|lia]. }
  unfold shl_align, fexp, emin.
  replace (Z.max (Zpos (digits2_pos p) + 0 - 53) (3 - 1024 - 53) - 0)
    with (Zpos (digits2_pos p) - 53) by lia.
  replace (Z.max (Zpos (digits2_pos p) + 0 - 53) (3 - 1024 - 53))
    with (Zpos (digits2_pos p) - 53) by lia.
  destruct (Zpos (digits2_pos p) - 53) as [|k|k] eqn:Hk; [|lia|].
  - exists p, 0. split_and!; [apply Haux|..]; lia.
  - exists (Pos.iter xO p k), (Zneg k). split_and!.
    + apply Haux; [rewrite digits2_pos_iter_xO|]; lia.
    + lia.
    + lia.
    + rewrite iter_xO_mul. change (- Zneg k) with (Zpos k).
      by rewrite Z.pow_pos_fold.
Qed.

Lemma read_small (s : bool) (m : positive) (e z : Z) :
  -52 ≤ e ≤ 0 → Zpos m = z * 2 ^ (- e) →
  F64.toward_zero (Zpos m) e = z ∧ F64.nearest_even (Zpos m) e = z.
Proof.
  intros He Hm. destruct e as [|k|k]; [|lia|].
  - simpl in *. lia.
  - unfold F64.toward_zero, F64.nearest_even. cbn zeta.
    rewrite Z.pow_pos_fold. change (- Zneg k) with (Zpos k) in Hm.
    assert (0 < 2 ^ Zpos k) by (apply Z.pow_pos_nonneg; lia).
    rewrite Hm, Z.div_mul, Z.mod_mul by lia. split; [done|].
    destruct (Z.compare_spec (2 * 0) (2 ^ Zpos k)); lia.
Qed.

(** The cell-to-float round trip: [int(float(z))] and [round(float(z))]
    give [z] back, for every int below [2^53] in absolute value. *)
Lemma py_int_of_Z (z : Z) :
  Z.abs z < 2 ^ 53 →
  F64.py_int (F64.of_Z z) = Some z ∧ F64.py_round (F64.of_Z z) = Some z.
Proof.
  intros Hz. unfold F64.of_Z, F64.dyadic, binary_normalize.
  destruct z as [|p|p]; [done|..].
  - destruct (binary_round_small false p) as (m & e & -> & He & Hm).
    { apply digits2_pos_bound. lia. }
    destruct (read_small false m e (Zpos p) He Hm) as [Hi Hr].
    simpl. by rewrite Hi, Hr.
  - destruct (binary_round_small true p) as (m & e & -> & He & Hm).
    { apply digits2_pos_bound. lia. }
    destruct (read_small true m e (Zpos p) He Hm) as [Hi Hr].
    simpl. by rewrite Hi, Hr.
Qed.

Lemma of_Z_shape (z : Z) :
  exact_int z →
  F64.of_Z z = S754_zero false ∨ ∃ s m e, F64.of_Z z = S754_finite s m e.
Proof.
  intros Hz. unfold exact_int in Hz.
  unfold F64.of_Z, F64.dyadic, binary_normalize.
  destruct z as [|p|p]; [by left|right..].
  - destruct (binary_round_small false p) as (m & e & -> & _);
      [apply digits2_pos_bound; lia|eauto].
  - destruct (binary_round_small true p) as (m & e & -> & _);
      [apply digits2_pos_bound; lia|eauto].
Qed.

Lemma sub_self (x : float) : is_finite x → F64.sub x x = S754_zero false.
Proof.
  destruct x as [[]| | |s m e]; try done. intros _.
  unfold F64.sub, SFsub. cbn zeta. by rewrite Z.sub_diag.
Qed.

Lemma add_zero (x : float) :
  x ≠ S754_zero true → F64.add x (S754_zero false) = x.
Proof. by destruct x as [[]|[]| |]. Qed.

Lemma np_sub_self (p : point) :
  finite_point p → np_sub p p = (S754_zero false, S754_zero false).
Proof.
  intros [H1 H2]. unfold np_sub. by rewrite !sub_self.
Qed.

Lemma np_add_origin (c : cell) :
  exact_cell c →
  np_add (np_array c) (S754_zero false, S754_zero false) = np_array c.
Proof.
  intros [H1 H2]. unfold np_add, np_array. cbn [fst snd].
  rewrite !add_zero; [done|..].
  - destruct (of_Z_shape _ H2) as [->|(s & m & e & ->)]; done.
  - destruct (of_Z_shape _ H1) as [->|(s & m & e & ->)]; done.
Qed.

(** X1: a cell turned into an array of floats and read back with [int] or
    with [round] is the cell again, for coordinates below [2^53] in absolute
    value. *)
Theorem cell_round_trip (c : cell) :
  exact_cell c →
  F64.py_int (np_array c).1 = Some c.1
  ∧ F64.py_int (np_array c).2 = Some c.2
  ∧ F64.py_round (np_array c).1 = Some c.1
  ∧ F64.py_round (np_array c).2 = Some c.2.
Proof.
  intros [H1 H2]. unfold np_array. cbn [fst snd].
  destruct (py_int_of_Z _ H1), (py_int_of_Z _ H2). done.
Qed.

Lemma cell_round_trip_witness :
  F64.py_int (np_array (17, -3)).1 = Some 17
  ∧ F64.py_int (np_array (17, -3)).2 = Some (-3)
  ∧ F64.py_round (np_array (17, -3)).1 = Some 17
  ∧ F64.py_round (np_array (17, -3)).2 = Some (-3).
Proof.
  apply (cell_round_trip (17, -3)). split; unfold exact_int; simpl; lia.
Defined.

(** ** The rigid move *)

Lemma move_anchors_keys (ip : anchors) (cid : Z) (next : point)
    (ps ps' : anchors) :
  move_anchors ip cid next ps = Some ps' → ps'.*1 = ps.*1.
Proof.
  revert ps'. induction ps as [|[k p] ps IH]; intros ps'; simpl.
  - by intros [= <-].
  - destruct (dict_get k ip); [|done]. simpl.
    destruct (dict_get cid ip); [|done]. simpl.
    destruct (move_anchors ip cid next ps) as [rest|]; [|done]. simpl.
    intros [= <-]. simpl. f_equal. by apply IH.
Qed.

Lemma move_anchors_get (ip : anchors) (cid : Z) (next : point)
    (ps ps' : anchors) (k : Z) :
  move_anchors ip cid next ps = Some ps' →
  is_Some (dict_get k ps) →
  ∃ pk pc, dict_get k ip = Some pk ∧ dict_get cid ip = Some pc
           ∧ dict_get k ps' = Some (np_add next (np_sub pk pc)).
Proof.
  revert ps'. induction ps as [|[k' p] ps IH]; intros ps'; simpl.
  - intros _ [? [=]].
  - destruct (dict_get k' ip) as [pk|] eqn:Hk; [|done]. simpl.
    destruct (dict_get cid ip) as [pc|] eqn:Hc; [|done]. simpl.
    destruct (move_anchors ip cid next ps) as [rest|]; [|done]. simpl.
    intros [= <-]. simpl. destruct (decide (k = k')) as [->|Hne].
    + intros _. exists pk, pc. done.
    + intros Hin. destruct (IH rest eq_refl Hin) as (pk' & pc' & ? & ? & ?).
      exists pk', pc'. split_and!; congruence.
Qed.

Lemma dict_get_is_Some {A : Type} (k : Z) (d : list (Z * A)) :
  is_Some (dict_get k d) ↔ k ∈ d.*1.
Proof.
  induction d as [|[k' v] d IH]; simpl.
  - split; [intros [? [=]]|intros Hk; by apply elem_of_nil in Hk].
  - rewrite elem_of_cons. destruct (decide (k = k')) as [->|Hne].
    + split; eauto.
    + rewrite IH. split; [by right|]. intros [?|?]; done.
Qed.

Lemma move_anchors_total (ip : anchors) (cid : Z) (next : point)
    (ps : anchors) :
  (∀ k, k ∈ ps.*1 → k ∈ ip.*1) →
  (ps ≠ [] → cid ∈ ip.*1) →
  is_Some (move_anchors ip cid next ps).
Proof.
  intros Hkeys Hc. induction ps as [|[k p] ps IH]; simpl; [eauto|].
  destruct (proj2 (dict_get_is_Some k ip)) as [pk ->].
  { apply Hkeys. by left. }
  destruct (proj2 (dict_get_is_Some cid ip)) as [pc ->]; [by apply Hc|].
  simpl. destruct IH as [rest ->].
  - intros k' Hk'. apply Hkeys. by right.
  - intros _. by apply Hc.
  - simpl. eauto.
Qed.

(** ** Steps along a path *)

Lemma well_formed_center (w : world) :
  well_formed w →
  ∃ pc, dict_get (center_id w) (initial_positions w) = Some pc
        ∧ finite_point pc
        ∧ center_id w ∈ (initial_positions w).*1
        ∧ is_Some (dict_get (center_id w) (positions w)).
Proof.
  intros (Hkeys & (pc & Hpc & Hfin) & _). exists pc.
  assert (Hin : center_id w ∈ (initial_positions w).*1).
  { apply dict_get_is_Some. eauto. }
  split_and!; try done. apply dict_get_is_Some. by rewrite Hkeys.
Qed.

(** In a well-formed world the rigid move raises nothing, puts the center
    on the target and keeps the world well formed. *)
Lemma advance_well_formed (w : world) (next : point) :
  well_formed w →
  ∃ w1, advance w next = Some w1
        ∧ well_formed w1
        ∧ dict_get (center_id w1) (positions w1)
          = Some (np_add next (S754_zero false, S754_zero false))
        ∧ path w1 = path w ∧ obstacles w1 = obstacles w
        ∧ current_shape_type w1 = current_shape_type w
        ∧ safety_margin w1 = safety_margin w.
Proof.
  intros Hwf.
  destruct (well_formed_center w Hwf) as (pc & Hpc & Hfin & Hin & Hpos).
  destruct Hwf as (Hkeys & Hcenter & Hconn).
  destruct (move_anchors_total (initial_positions w) (center_id w) next
              (positions w)) as [ps Hps].
  { intros k Hk. by rewrite <- Hkeys. }
  { done. }
  exists (set_motion w ps (S (step_index w))). split_and!; try done.
  - unfold advance. destruct Hpos as [p ->]. simpl. by rewrite Hps.
  - split_and!; try done. simpl. rewrite <- Hkeys.
    by eapply move_anchors_keys.
  - simpl.
    destruct (move_anchors_get _ _ _ _ _ (center_id w) Hps Hpos)
      as (pk & pc' & Hk & Hc & ->).
    replace pk with pc by congruence. replace pc' with pc by congruence.
    by rewrite np_sub_self.
Qed.

(** The three factories give well-formed bodies. *)
Lemma factory_well_formed (k : shape_type) (w : world) :
  well_formed (switch_shape (factory k) w).
Proof.
  assert (Hin : ∀ (x : Z) (l : list Z), In x l → x ∈ l)
    by (intros; by apply list_elem_of_In).
  split_and!.
  - reflexivity.
  - destruct k; eexists; (split; [vm_compute; reflexivity|]);
      split; exact I.
  - intros a b Hab. cbn [connections switch_shape initial_positions] in *.
    apply list_elem_of_In in Hab.
    destruct k; vm_compute in Hab;
      repeat (destruct Hab as [[= <- <-]|Hab]); try done;
      split; apply Hin; vm_compute; auto 20.
Qed.

Lemma with_scene_well_formed (w : world) (obs : gmap cell obstacle_type)
    (p : list point) :
  well_formed w → well_formed (with_scene w obs p).
Proof. done. Qed.

Lemma initial_world_well_formed : well_formed initial_world.
Proof. apply (factory_well_formed dog initial_world). Qed.

(** What the rigid move leaves alone, beside the fields of
    [advance_keeps]. *)
Lemma advance_frame (w w1 : world) (next_pos : point) :
  advance w next_pos = Some w1 →
  path w1 = path w
  ∧ grid_size w1 = grid_size w
  ∧ connections w1 = connections w
  ∧ current_obstacle_type w1 = current_obstacle_type w
  ∧ expanded_obstacles w1 = expanded_obstacles w.
Proof.
  unfold advance. intros Ha.
  destruct (dict_get (center_id w) (positions w)); [|discriminate].
  simpl in Ha.
  destruct (move_anchors _ _ _ _); [|discriminate].
  injection Ha as <-. done.
Qed.

(** A step to a cell that binary64 holds exactly. *)
Lemma step_world (w : world) (c : cell) :
  well_formed w →
  path w !! step_index w = Some (np_array c) →
  exact_cell c →
  ∃ w1, advance w (np_array c) = Some w1
        ∧ well_formed w1
        ∧ dict_get (center_id w1) (positions w1) = Some (np_array c)
        ∧ center_cell w1 = Some c
        ∧ update_positions w = Some (scan w1 (box (safety_margin w) c)).
Proof.
  intros Hwf Hp Hc.
  destruct (advance_well_formed w (np_array c) Hwf)
    as (w1 & Ha & Hwf1 & Hcenter & _ & _ & _ & Hm).
  rewrite np_add_origin in Hcenter by done.
  assert (Hcell : center_cell w1 = Some c).
  { unfold center_cell. rewrite Hcenter. simpl.
    destruct Hc as [H1 H2].
    destruct (py_int_of_Z _ H1) as [-> _], (py_int_of_Z _ H2) as [-> _].
    simpl. by destruct c. }
  exists w1. split_and!; try done.
  unfold update_positions. rewrite Hp. simpl. rewrite Ha. simpl.
  rewrite Hcell. simpl. by rewrite Hm.
Qed.

(** X2: in a well-formed world, a step to a path cell whose coordinates
    binary64 holds exactly raises nothing, puts the center anchor exactly on
    that cell, and scans the box around that very cell. *)
Theorem step_lands_on_cell (w : world) (c : cell) :
  well_formed w →
  path w !! step_index w = Some (np_array c) →
  exact_cell c →
  ∃ w1, advance w (np_array c) = Some w1
        ∧ dict_get (center_id w1) (positions w1) = Some (np_array c)
        ∧ center_cell w1 = Some c
        ∧ update_positions w = Some (scan w1 (box (safety_margin w) c)).
Proof.
  intros Hwf Hp Hc.
  destruct (step_world w c Hwf Hp Hc) as (w1 & ? & _ & ? & ? & ?).
  by exists w1.
Qed.

Lemma step_lands_on_cell_witness :
  ∃ w1, advance tunnel_world (np_array (5, 5)) = Some w1
        ∧ dict_get (center_id w1) (positions w1) = Some (np_array (5, 5))
        ∧ center_cell w1 = Some (5, 5)
        ∧ update_positions tunnel_world
          = Some (scan w1 (box (safety_margin tunnel_world) (5, 5))).
Proof.
  apply (step_lands_on_cell tunnel_world (5, 5)).
  - apply with_scene_well_formed, initial_world_well_formed.
  - reflexivity.
  - split; unfold exact_int; simpl; lia.
Defined.

Lemma update_positions_well_formed (w w' : world) :
  well_formed w → update_positions w = Some w' → well_formed w'.
Proof.
  intros Hwf Hu.
  destruct (update_positions_cases _ _ Hu)
    as [[_ ->]|(next & w1 & c & _ & Ha & _ & ->)]; [done|].
  destruct (advance_well_formed w next Hwf) as (w1' & Ha' & Hwf1 & _).
  replace w1' with w1 in * by congruence.
  destruct (scan_cases w1 (box (safety_margin w) c))
    as [[_ ->]|(_ & _ & _ & k & _ & _ & _ & ->)]; [done|].
  apply factory_well_formed.
Qed.

(** A step in a quiet world: the body moves and nothing else changes. *)
Lemma quiet_step (w : world) (c : cell) :
  well_formed w → quiet w →
  path w !! step_index w = Some (np_array c) →
  exact_cell c →
  ∃ w1, update_positions w = Some w1
        ∧ well_formed w1 ∧ quiet w1
        ∧ path w1 = path w
        ∧ step_index w1 = S (step_index w)
        ∧ center_cell w1 = Some c
        ∧ current_shape_type w1 = current_shape_type w.
Proof.
  intros Hwf Hq Hp Hc.
  destruct (step_world w c Hwf Hp Hc) as (w1 & Ha & Hwf1 & _ & Hcell & Hu).
  destruct (advance_keeps _ _ _ Ha) as (Hkind & Hobs & _ & _ & _ & Hidx).
  destruct (advance_frame _ _ _ Ha) as (Hpath & _).
  assert (Hq1 : quiet w1).
  { intros n. specialize (Hq n). unfold required_kind in *.
    by rewrite Hobs, Hkind. }
  exists w1. split_and!; try done.
  rewrite Hu. f_equal. apply scan_quiet. intros m _. apply Hq1.
Qed.

Lemma ticks_quiet (cells : list cell) (k : nat) (w : world) :
  well_formed w → quiet w →
  path w = map np_array cells →
  Forall exact_cell cells →
  (step_index w + S k = length cells)%nat →
  ∃ w', ticks (S k) w = Some w'
        ∧ center_cell w' = last cells
        ∧ step_index w' = length cells
        ∧ path w' = path w
        ∧ current_shape_type w' = current_shape_type w.
Proof.
  revert w. induction k as [|k IH]; intros w Hwf Hq Hpath Hex Hlen.
  - destruct (lookup_lt_is_Some_2 cells (step_index w)) as [c Hc]; [lia|].
    destruct (quiet_step w c Hwf Hq) as (w1 & Hu & _ & _ & Hp1 & Hi1 & Hc1 & Hk1).
    { by rewrite Hpath, list_lookup_fmap, Hc. }
    { by eapply Forall_lookup_1. }
    exists w1. cbn [ticks]. rewrite Hu. simpl. split_and!; try done.
    + rewrite Hc1, last_lookup, <- Hc. f_equal. lia.
    + lia.
  - destruct (lookup_lt_is_Some_2 cells (step_index w)) as [c Hc]; [lia|].
    destruct (quiet_step w c Hwf Hq)
      as (w1 & Hu & Hwf1 & Hq1 & Hp1 & Hi1 & _ & Hk1).
    { by rewrite Hpath, list_lookup_fmap, Hc. }
    { by eapply Forall_lookup_1. }
    destruct (IH w1) as (w' & Ht & Hc' & Hi' & Hp' & Hk'); try done.
    { congruence. }
    { lia. }
    exists w'. change (ticks (S (S k)) w) with
      (update_positions w ≫= ticks (S k)).
    rewrite Hu. simpl. split_and!; try done; congruence.
Qed.

(** Past the end of the path a step changes nothing. *)
Lemma ticks_rest (w : world) (n : nat) :
  (length (path w) ≤ step_index w)%nat → ticks n w = Some w.
Proof.
  intros Hend.
  assert (Hstay : update_positions w = Some w).
  { unfold update_positions. by rewrite lookup_ge_None_2. }
  induction n as [|n IHn]; [done|].
  cbn [ticks]. rewrite Hstay. simpl. exact IHn.
Qed.

(** X3: in a well-formed world where no obstacle asks for another kind, a
    body at the start of a path of exactly held cells is, after as many steps
    as the path has cells, centered on the last cell of the path, with the
    same topology, whatever obstacles the path crosses; every later step
    changes nothing. *)
Theorem ticks_follow_path (w : world) (cells : list cell) :
  well_formed w → quiet w →
  path w = map np_array cells →
  Forall exact_cell cells →
  step_index w = 0%nat →
  cells ≠ [] →
  ∃ w', ticks (length cells) w = Some w'
        ∧ center_cell w' = last cells
        ∧ current_shape_type w' = current_shape_type w
        ∧ ∀ n, ticks n w' = Some w'.
Proof.
  intros Hwf Hq Hpath Hex Hidx Hne.
  destruct cells as [|c0 cells0] eqn:Hcells; [done|]. rewrite <- Hcells in *.
  assert (Hlen : length cells = S (length cells0)) by by rewrite Hcells.
  destruct (ticks_quiet cells (length cells0) w)
    as (w' & Ht & Hc & Hi & Hp & Hk); try done; [lia|].
  exists w'. rewrite Hlen. split_and!; try done.
  intros n. apply ticks_rest. rewrite Hp, Hpath, length_map. lia.
Qed.

Lemma ticks_follow_path_witness :
  ∃ w', ticks 3
          (with_scene initial_world {[ (2, 2) := HighWall ]}
             (map np_array [(1, 1); (2, 2); (3, 3)])) = Some w'
        ∧ center_cell w' = Some (3, 3)
        ∧ current_shape_type w' = dog
        ∧ ∀ n, ticks n w' = Some w'.
Proof.
  apply (ticks_follow_path
           (with_scene initial_world {[ (2, 2) := HighWall ]}
              (map np_array [(1, 1); (2, 2); (3, 3)]))
           [(1, 1); (2, 2); (3, 3)]).
  - apply with_scene_well_formed, initial_world_well_formed.
  - intros n. unfold required_kind. cbn [obstacles with_scene].
    destruct (decide (n = (2, 2))) as [->|Hn].
    + by rewrite lookup_singleton_eq.
    + by rewrite lookup_singleton_ne.
  - reflexivity.
  - repeat constructor; unfold exact_int; simpl; lia.
  - reflexivity.
  - discriminate.
Defined.

(** ** Worlds the program reaches *)

(** The full-body check raises nothing when each anchor rounds to a
    cell. *)
Lemma is_valid_position_total (grid : cell) (expanded : gset cell)
    (offsets : list point) (center : point) :
  (∀ offset, offset ∈ offsets →
     is_Some (F64.py_round (F64.add center.1 offset.1))
     ∧ is_Some (F64.py_round (F64.add center.2 offset.2))) →
  is_Some (is_valid_position grid expanded offsets center).
Proof.
  induction offsets as [|offset rest IH]; intros Hall; simpl; [done|].
  destruct (Hall offset) as [[cx ->] [cy ->]]; [by left|]. simpl.
  destruct (in_bounds grid (cx, cy)); simpl; [|done].
  case_bool_decide; simpl; [done|].
  apply IH. intros o Ho. apply Hall. by right.
Qed.

Lemma factory_offsets_eq (k : shape_type) :
  relative_offsets (shape_positions (factory k)) (shape_center (factory k))
  = Some (factory_offsets k).
Proof. destruct k; vm_compute; reflexivity. Qed.

(** On the grid of the source every anchor of the three bodies rounds to a
    cell, in each coordinate. *)
Lemma factory_check (k : shape_type) :
  forallb (fun x =>
             forallb (fun o : point =>
                        bool_decide
                          (is_Some (F64.py_round (F64.add (F64.of_Z x) o.1)))
                        && bool_decide
                             (is_Some (F64.py_round
                                         (F64.add (F64.of_Z x) o.2))))
                     (factory_offsets k).*2)
          (py_range 0 40) = true.
Proof. destruct k; vm_compute; reflexivity. Qed.

Lemma factory_check_total (k : shape_type) (expanded : gset cell) (c : cell) :
  in_bounds (40, 40) c = true →
  is_Some (is_valid_position (40, 40) expanded (factory_offsets k).*2
             (np_array c)).
Proof.
  intros Hc. apply in_bounds_spec in Hc. cbn [fst snd] in Hc.
  pose proof (factory_check k) as Hall. rewrite forallb_forall in Hall.
  apply is_valid_position_total. intros offset Ho. cbn [np_array fst snd].
  split.
  - assert (Hx : c.1 ∈ py_range 0 40) by (apply elem_of_py_range; lia).
    apply list_elem_of_In, Hall in Hx. rewrite forallb_forall in Hx.
    apply list_elem_of_In, Hx, andb_true_iff in Ho as [Ho _].
    by apply bool_decide_eq_true in Ho.
  - assert (Hy : c.2 ∈ py_range 0 40) by (apply elem_of_py_range; lia).
    apply list_elem_of_In, Hall in Hy. rewrite forallb_forall in Hy.
    apply list_elem_of_In, Hy, andb_true_iff in Ho as [_ Ho].
    by apply bool_decide_eq_true in Ho.
Qed.

Lemma factory_center_cell (k : shape_type) (w : world) :
  ∃ c, center_cell (switch_shape (factory k) w) = Some c ∧ exact_cell c.
Proof.
  unfold center_cell. cbn [switch_shape center_id positions].
  destruct k; [exists (1, 1)|exists (11, 4)|exists (11, 5)];
    (split; [vm_compute; reflexivity|]); split; vm_compute; reflexivity.
Qed.

Lemma in_bounds_exact (grid c : cell) :
  grid.1 ≤ 2 ^ 53 → grid.2 ≤ 2 ^ 53 →
  in_bounds grid c = true → exact_cell c.
Proof.
  intros H1 H2 Hc. apply in_bounds_spec in Hc.
  split; unfold exact_int; lia.
Qed.

Lemma leads_exact (grid : cell) (expanded : gset cell)
    (offsets : list point) (start goal : cell) (cells : list cell) :
  grid.1 ≤ 2 ^ 53 → grid.2 ≤ 2 ^ 53 →
  exact_cell start →
  leads grid expanded offsets start goal cells →
  Forall exact_cell cells.
Proof.
  intros H1 H2 Hstart (Hhead & _ & Hmoves).
  apply Forall_lookup_2. intros i c Hc. destruct i as [|i].
  - rewrite <- head_lookup, Hhead in Hc. by injection Hc as <-.
  - destruct (lookup_lt_is_Some_2 cells i) as [a Ha].
    { apply lookup_lt_Some in Hc. lia. }
    destruct (Hmoves i a c Ha Hc) as (_ & Hb & _).
    by eapply in_bounds_exact.
Qed.

Section Reachable.

Context {cost : Type} `{CostOps cost}.

(** With a full-body check that raises nothing on the grid, [a_star]
    raises nothing, whatever the arithmetic of costs. *)
Lemma a_star_no_raise (fuel : nat) (w : world) (start goal : cell)
    (obs : gmap cell obstacle_type) (grid : cell) (offs : anchors) :
  relative_offsets (initial_positions w) (center_id w) = Some offs →
  (∀ c, in_bounds grid c = true →
        is_Some (is_valid_position grid
                   (inflate ∅ obs (current_shape_type w) (safety_margin w) grid)
                   offs.*2 (np_array c))) →
  (a_star fuel w start goal obs grid).2 ≠ Raised.
Proof.
  intros Hoffs Htotal. unfold a_star. cbn [snd]. rewrite Hoffs.
  change (inflate (expanded_obstacles w) obs (current_shape_type w)
            (safety_margin w) grid)
    with (inflate ∅ obs (current_shape_type w) (safety_margin w) grid).
  set (expanded := inflate ∅ obs (current_shape_type w) (safety_margin w)
                     grid) in *.
  set (s0 := {| frontier := [(zero, start)];
                came_from := {[start := None]};
                cost_so_far := {[start := zero]} |} : @search cost).
  assert (Hinv0 : search_inv grid expanded offs.*2 start s0).
  { split; unfold s0; cbn [came_from cost_so_far frontier].
    - intros c. rewrite !lookup_singleton_is_Some. done.
    - intros c p'. rewrite lookup_singleton_Some. intros [_ [=]].
    - intros c. rewrite lookup_singleton_Some. by intros [<- _].
    - intros e ->%list_elem_of_singleton. cbn [snd].
      by rewrite lookup_singleton_eq.
    - by rewrite lookup_singleton_eq.
    - intros c. rewrite lookup_singleton_is_Some. intros <-. apply rtc_refl. }
  assert (Hclosed0 : closed_inv grid expanded offs.*2 s0).
  { intros c. unfold s0. cbn [cost_so_far frontier].
    rewrite lookup_singleton_is_Some. intros <-. left. exists zero. by left. }
  pose proof (search_loop_no_raise grid expanded offs.*2 start goal Htotal
                fuel s0 Hinv0 Hclosed0) as Hno.
  destruct (search_loop grid expanded offs.*2 goal fuel s0) as [s| |];
    [|done|done].
  assert (Hwalk : ∀ n cf curr acc, walk_back n cf curr acc ≠ Raised).
  { clear. intros n cf. induction n as [|n IH]; intros [c|] acc; simpl;
      try done; destruct (cf !! c); try done. }
  specialize (Hwalk fuel (came_from s) (Some goal) []).
  by destruct (walk_back fuel (came_from s) (Some goal) []).
Qed.

Lemma on_click_plan_keeps (fuel : nat) (w w' : world) (c : cell)
    (printed : list message) :
  on_click_plan fuel w c = Ok (w', printed) →
  positions w' = positions w
  ∧ initial_positions w' = initial_positions w
  ∧ center_id w' = center_id w
  ∧ connections w' = connections w
  ∧ current_shape_type w' = current_shape_type w
  ∧ obstacles w' = obstacles w
  ∧ safety_margin w' = safety_margin w
  ∧ grid_size w' = grid_size w
  ∧ expanded_obstacles w'
    = inflate ∅ (obstacles w) (current_shape_type w) (safety_margin w)
        (grid_size w).
Proof.
  unfold on_click_plan. destruct (center_cell w) as [start|]; [|done].
  unfold a_star.
  destruct (relative_offsets _ _) as [offs|]; [|done].
  destruct (search_loop _ _ _ _ _ _) as [s| |]; [|done|done].
  destruct (walk_back _ _ _ _) as [p| |]; [|done|done].
  destruct (rev p); intros [= <- <-]; done.
Qed.

(** What the right button stores: the path of [a_star] from the cell of
    the center, and the cursor at its start when the path is not empty. *)
Lemma on_click_plan_path (fuel : nat) (w w' : world) (c : cell)
    (printed : list message) :
  on_click_plan fuel w c = Ok (w', printed) →
  ∃ start,
    center_cell w = Some start
    ∧ (a_star fuel w start c (obstacles w) (grid_size w)).2 = Ok (path w')
    ∧ ((path w' = [] ∧ printed = [No_valid_path_to c]
        ∧ step_index w' = step_index w)
       ∨ (path w' ≠ [] ∧ printed = [] ∧ step_index w' = 0%nat)).
Proof.
  unfold on_click_plan. destruct (center_cell w) as [start|]; [|done].
  destruct (a_star fuel w start c (obstacles w) (grid_size w))
    as [expanded [[|p new_path]| |]] eqn:Hrun; [| |done|done];
    cbn zeta; intros [= <- <-]; exists start; rewrite Hrun;
    cbn [snd path step_index]; (split; [done|]); (split; [done|]).
  - by left.
  - by right.
Qed.

Lemma on_click_cases (fuel : nat) (event : mouse_event) (w w' : world)
    (printed : list message) :
  on_click fuel event w = Ok (w', printed) →
  (w' = w ∧ printed = [])
  ∨ (∃ c, w' = toggle_obstacle c w ∧ printed = [])
  ∨ (∃ c, on_click_plan fuel w c = Ok (w', printed)).
Proof.
  unfold on_click.
  destruct (inaxes event); cbn [negb]; [|intros [= <- <-]; by left].
  destruct (F64.py_int (xdata event)) as [gx|]; [|done].
  destruct (F64.py_int (ydata event)) as [gy|]; [|done].
  cbn zeta. repeat case_decide.
  - intros Hplan. right. right. eauto.
  - intros [= <- <-]. right. left. eauto.
  - intros [= <- <-]. by left.
Qed.

Lemma toggle_obstacle_keeps (c : cell) (w : world) :
  positions (toggle_obstacle c w) = positions w
  ∧ initial_positions (toggle_obstacle c w) = initial_positions w
  ∧ center_id (toggle_obstacle c w) = center_id w
  ∧ connections (toggle_obstacle c w) = connections w
  ∧ current_shape_type (toggle_obstacle c w) = current_shape_type w
  ∧ path (toggle_obstacle c w) = path w
  ∧ step_index (toggle_obstacle c w) = step_index w
  ∧ grid_size (toggle_obstacle c w) = grid_size w
  ∧ safety_margin (toggle_obstacle c w) = safety_margin w
  ∧ expanded_obstacles (toggle_obstacle c w) = expanded_obstacles w
  ∧ current_obstacle_type (toggle_obstacle c w) = current_obstacle_type w.
Proof. unfold toggle_obstacle. by case_match. Qed.

Lemma on_click_well_formed (fuel : nat) (event : mouse_event)
    (w w' : world) (printed : list message) :
  well_formed w → on_click fuel event w = Ok (w', printed) →
  well_formed w'.
Proof.
  intros Hwf Hclick.
  destruct (on_click_cases _ _ _ _ _ Hclick)
    as [[-> _]|[(c & -> & _)|(c & Hplan)]]; [done|..].
  - destruct (toggle_obstacle_keeps c w) as (Hp & Hi & Hc & Hn & _).
    unfold well_formed. by rewrite Hp, Hi, Hc, Hn.
  - destruct (on_click_plan_keeps _ _ _ _ _ Hplan)
      as (Hp & Hi & Hc & Hn & _).
    unfold well_formed. by rewrite Hp, Hi, Hc, Hn.
Qed.

Lemma segments_of_total (ps : anchors) (conns : list (Z * Z)) :
  (∀ a b, (a, b) ∈ conns → a ∈ ps.*1 ∧ b ∈ ps.*1) →
  is_Some (segments_of ps conns).
Proof.
  induction conns as [|[a b] conns IH]; intros Hin; simpl; [eauto|].
  destruct (Hin a b) as [Ha Hb]; [by left|].
  apply dict_get_is_Some in Ha as [pa ->], Hb as [pb ->]. simpl.
  destruct IH as [segs ->]; [|simpl; eauto].
  intros a' b' Hab. apply Hin. by right.
Qed.

Lemma offsets_of_total (ip : anchors) (cid : Z) (keys : anchors) :
  (∀ k, k ∈ keys.*1 → k ∈ ip.*1) → cid ∈ ip.*1 →
  is_Some (offsets_of ip cid keys).
Proof.
  intros Hkeys Hc. induction keys as [|[k p] keys IH]; simpl; [eauto|].
  destruct (proj2 (dict_get_is_Some k ip)) as [pk ->].
  { apply Hkeys. by left. }
  destruct (proj2 (dict_get_is_Some cid ip)) as [pc ->]; [done|].
  simpl. destruct IH as [rest ->]; [|simpl; eauto].
  intros k' Hk'. apply Hkeys. by right.
Qed.

Lemma center_cell_same (w w' : world) :
  positions w' = positions w → center_id w' = center_id w →
  center_cell w' = center_cell w.
Proof. intros Hp Hc. unfold center_cell. by rewrite Hp, Hc. Qed.

Lemma initial_world_sane : sane initial_world.
Proof.
  split_and!.
  - apply initial_world_well_formed.
  - done.
  - by exists dog.
  - apply (factory_center_cell dog initial_world).
  - by exists [].
Qed.

Lemma switch_shape_sane (k : shape_type) (w : world) :
  sane w → sane (switch_shape (factory k) w).
Proof.
  intros (_ & Hgrid & _ & _ & Hpath). split_and!; try done.
  - apply factory_well_formed.
  - by exists k.
  - apply factory_center_cell.
Qed.

Lemma update_positions_sane (w w' : world) :
  sane w → update_positions w = Some w' → sane w'.
Proof.
  intros Hsane Hu.
  destruct (update_positions_cases _ _ Hu)
    as [[_ ->]|(next & w1 & c & Hp & Ha & Hc & ->)]; [done|].
  destruct Hsane as (Hwf & Hgrid & (k & Hk1 & Hk2) & _ & cells & Hcells & Hex).
  rewrite Hcells, list_lookup_fmap in Hp.
  destruct (cells !! step_index w) as [c'|] eqn:Hc'; [|done].
  injection Hp as <-.
  assert (Hexc : exact_cell c') by by eapply Forall_lookup_1.
  destruct (step_world w c' Hwf) as (w1' & Ha' & Hwf1 & _ & Hcell & _);
    [by rewrite Hcells, list_lookup_fmap, Hc'|done|].
  replace w1' with w1 in * by congruence.
  destruct (advance_keeps _ _ _ Ha) as (_ & _ & _ & Hcid & Hip & _).
  destruct (advance_frame _ _ _ Ha) as (Hpath & Hg & _).
  assert (Hsane1 : sane w1).
  { split_and!; try done.
    - congruence.
    - exists k. split; congruence.
    - eauto.
    - exists cells. split; [congruence|done]. }
  destruct (scan_cases w1 (box (safety_margin w) c))
    as [[_ ->]|(_ & _ & _ & k' & _ & _ & _ & ->)]; [done|].
  by apply switch_shape_sane.
Qed.

Lemma on_click_sane (fuel : nat) (event : mouse_event) (w w' : world)
    (printed : list message) :
  sane w → on_click fuel event w = Ok (w', printed) → sane w'.
Proof.
  intros Hsane Hclick.
  pose proof Hsane as (Hwf & Hgrid & (k & Hk1 & Hk2) & (c0 & Hc0 & Hex0)
                       & cells & Hcells & Hex).
  assert (Hwf' : well_formed w') by by eapply on_click_well_formed.
  destruct (on_click_cases _ _ _ _ _ Hclick)
    as [[-> _]|[(c & -> & _)|(c & Hplan)]]; [done|..].
  - destruct (toggle_obstacle_keeps c w)
      as (Hp & Hi & Hc & _ & _ & Hpath & _ & Hg & _).
    split_and!; try done.
    + congruence.
    + exists k. split; congruence.
    + exists c0. by rewrite (center_cell_same w _ Hp Hc).
    + exists cells. split; [congruence|done].
  - destruct (on_click_plan_keeps _ _ _ _ _ Hplan)
      as (Hp & Hi & Hc & _ & _ & _ & _ & Hg & _).
    split_and!; try done.
    + congruence.
    + exists k. split; congruence.
    + exists c0. by rewrite (center_cell_same w _ Hp Hc).
    + destruct (on_click_plan_path _ _ _ _ _ Hplan)
        as (start & Hstart & Hrun & _).
      replace start with c0 in * by congruence.
      destruct (well_formed_center w Hwf) as (pc & _ & _ & Hin & _).
      destruct (offsets_of_total (initial_positions w) (center_id w)
                  (initial_positions w)) as [offs Hoffs]; [done|done|].
      destruct (a_star_sound fuel w c0 c (obstacles w) (grid_size w) offs
                  (path w') Hoffs Hrun) as (cells' & Hpath' & Hcases).
      exists cells'. split; [done|].
      destruct Hcases as [[-> _]|[_ Hleads]]; [done|].
      eapply leads_exact; [| |exact Hex0|exact Hleads];
        rewrite Hgrid; simpl; lia.
Qed.

Lemma host_step_sane (w w' : world) : sane w → host_step w w' → sane w'.
Proof.
  intros Hsane Hstep. destruct Hstep.
  - by eapply update_positions_sane.
  - by apply switch_shape_sane.
  - done.
  - by eapply on_click_sane.
Qed.

Lemma reached_sane (w : world) : rtc host_step initial_world w → sane w.
Proof.
  intros Hreach. generalize initial_world_sane.
  induction Hreach as [|a b c Hstep _ IH]; [done|].
  intros Ha. by eapply IH, host_step_sane.
Qed.

Lemma update_positions_well_formed_total (w : world) :
  sane w → ∃ w', update_positions w = Some w' ∧ well_formed w'.
Proof.
  intros (Hwf & _ & _ & _ & cells & Hcells & Hex).
  destruct (path w !! step_index w) as [next|] eqn:Hp.
  - rewrite Hcells, list_lookup_fmap in Hp.
    destruct (cells !! step_index w) as [c|] eqn:Hc; [|done].
    injection Hp as <-.
    destruct (step_world w c Hwf) as (w1 & _ & _ & _ & _ & Hu);
      [by rewrite Hcells, list_lookup_fmap, Hc|by eapply Forall_lookup_1|].
    eexists. split; [exact Hu|].
    by eapply update_positions_well_formed.
  - exists w. split; [|done]. unfold update_positions. by rewrite Hp.
Qed.


End Reachable.


(** ** What a step keeps and what it switches *)

(** X5: a step of [update_positions] leaves the path, the obstacles, the
    grid, the margin, the inflated set and the selected class alone; while
    the cursor is on the path it moves the cursor by one, also when the step
    ends in a switch; past the end of the path it changes nothing at all;
    and it never makes a line of a body that was not one. *)
Theorem update_positions_frame (w w' : world) :
  update_positions w = Some w' →
  (path w' = path w
   ∧ obstacles w' = obstacles w
   ∧ grid_size w' = grid_size w
   ∧ safety_margin w' = safety_margin w
   ∧ expanded_obstacles w' = expanded_obstacles w
   ∧ current_obstacle_type w' = current_obstacle_type w)
  ∧ ((step_index w < length (path w))%nat →
     step_index w' = S (step_index w))
  ∧ ((length (path w) ≤ step_index w)%nat → w' = w)
  ∧ (current_shape_type w' = line → current_shape_type w = line).
Proof.
  intros Hu.
  destruct (update_positions_cases _ _ Hu)
    as [[Hend ->]|(next & w1 & c & Hp & Ha & Hc & ->)].
  - split_and!; try done. intros Hlt.
    apply lookup_lt_is_Some_2 in Hlt as [x Hx]. congruence.
  - destruct (advance_keeps _ _ _ Ha) as (Hk & Ho & Hm & _ & _ & Hi).
    destruct (advance_frame _ _ _ Ha) as (Hpath & Hg & _ & Hcur & Hexp).
    assert (Hlt : (step_index w < length (path w))%nat)
      by by eapply lookup_lt_Some.
    destruct (scan_cases w1 (box (safety_margin w) c))
      as [[_ ->]|(_ & n & _ & k & _ & _ & Hn & ->)].
    + split_and!; try done; [lia|congruence].
    + split_and!; try done; [lia|].
      cbn [switch_shape current_shape_type]. rewrite factory_kind.
      intros ->. apply required_kind_cases in Hn.
      by destruct Hn as [(_ & ? & _)|(_ & ? & _)].
Qed.

Lemma update_positions_frame_witness :
  (path (scan tunnel_world_moved (box 1 (5, 5))) = path tunnel_world
   ∧ obstacles (scan tunnel_world_moved (box 1 (5, 5)))
     = obstacles tunnel_world
   ∧ grid_size (scan tunnel_world_moved (box 1 (5, 5)))
     = grid_size tunnel_world
   ∧ safety_margin (scan tunnel_world_moved (box 1 (5, 5)))
     = safety_margin tunnel_world
   ∧ expanded_obstacles (scan tunnel_world_moved (box 1 (5, 5)))
     = expanded_obstacles tunnel_world
   ∧ current_obstacle_type (scan tunnel_world_moved (box 1 (5, 5)))
     = current_obstacle_type tunnel_world)
  ∧ ((step_index tunnel_world < length (path tunnel_world))%nat →
     step_index (scan tunnel_world_moved (box 1 (5, 5)))
     = S (step_index tunnel_world))
  ∧ ((length (path tunnel_world) ≤ step_index tunnel_world)%nat →
     scan tunnel_world_moved (box 1 (5, 5)) = tunnel_world)
  ∧ (current_shape_type (scan tunnel_world_moved (box 1 (5, 5))) = line →
     current_shape_type tunnel_world = line).
Proof.
  apply (update_positions_frame tunnel_world
           (scan tunnel_world_moved (box 1 (5, 5)))).
  vm_compute. reflexivity.
Defined.

(** X6: in a well-formed world, a step to a cell that binary64 holds
    exactly changes the kind of the body if and only if some cell of the box
    around that cell holds an obstacle that asks for another kind than the
    active one; the body then stands on the rest positions of the factory of
    its new kind, which is the snake or the dog, and not around the cell it
    stepped to. *)
Theorem step_switches_iff (w : world) (c : cell) :
  well_formed w →
  path w !! step_index w = Some (np_array c) →
  exact_cell c →
  ∃ w', update_positions w = Some w'
        ∧ (current_shape_type w' ≠ current_shape_type w
           ↔ ∃ n, n ∈ box (safety_margin w) c ∧ is_Some (required_kind w n))
        ∧ (current_shape_type w' ≠ current_shape_type w →
           current_shape_type w' ≠ line
           ∧ positions w'
             = shape_positions (factory (current_shape_type w'))
           ∧ center_id w' = shape_center (factory (current_shape_type w'))).
Proof.
  intros Hwf Hp Hc.
  destruct (step_world w c Hwf Hp Hc) as (w1 & Ha & _ & _ & _ & Hu).
  destruct (advance_keeps _ _ _ Ha) as (Hk & Ho & _).
  assert (Hreq : ∀ n, required_kind w1 n = required_kind w n).
  { intros n. unfold required_kind. by rewrite Ho, Hk. }
  eexists. split; [exact Hu|].
  destruct (scan_cases w1 (box (safety_margin w) c))
    as [[Hq ->]|(pre & n & post & k & Hbox & _ & Hn & ->)].
  - split.
    + split; [congruence|]. intros (n & Hn & [k Hk']).
      rewrite <- Hreq, Hq in Hk'; done.
    + congruence.
  - cbn [switch_shape current_shape_type positions center_id].
    rewrite factory_kind.
    assert (Hne : k ≠ current_shape_type w).
    { apply required_kind_cases in Hn. rewrite Hk in Hn.
      destruct Hn as [(_ & -> & ?)|(_ & -> & ?)]; congruence. }
    split.
    + split; [|done]. intros _. exists n. split.
      * rewrite Hbox. apply elem_of_app. right. by left.
      * rewrite <- Hreq, Hn. eauto.
    + intros _. split_and!; try done.
      apply required_kind_cases in Hn.
      by destruct Hn as [(_ & -> & _)|(_ & -> & _)].
Qed.

Lemma step_switches_iff_witness :
  ∃ w', update_positions tunnel_world = Some w'
        ∧ (current_shape_type w' ≠ current_shape_type tunnel_world
           ↔ ∃ n, n ∈ box (safety_margin tunnel_world) (5, 5)
                  ∧ is_Some (required_kind tunnel_world n))
        ∧ (current_shape_type w' ≠ current_shape_type tunnel_world →
           current_shape_type w' ≠ line
           ∧ positions w'
             = shape_positions (factory (current_shape_type w'))
           ∧ center_id w' = shape_center (factory (current_shape_type w'))).
Proof.
  apply (step_switches_iff tunnel_world (5, 5)).
  - apply with_scene_well_formed, initial_world_well_formed.
  - reflexivity.
  - split; unfold exact_int; simpl; lia.
Defined.

(** ** The path and the obstacles *)

(** The center anchor is its own offset away from itself: the full-body
    check looks at the cell of the center. *)
Lemma center_offset (w : world) (offs : anchors) :
  well_formed w →
  relative_offsets (initial_positions w) (center_id w) = Some offs →
  (S754_zero false, S754_zero false) ∈ offs.*2.
Proof.
  intros Hwf Hoffs.
  destruct (well_formed_center w Hwf) as (pc & Hpc & Hfin & Hin & _).
  apply (elem_of_offsets_of _ _ _ _ _ Hoffs).
  exists (center_id w), pc, pc. split_and!; try done.
  by rewrite np_sub_self.
Qed.

Lemma valid_center_clear (w : world) (offs : anchors) (grid : cell)
    (expanded : gset cell) (c : cell) :
  well_formed w →
  relative_offsets (initial_positions w) (center_id w) = Some offs →
  exact_cell c →
  valid_center grid expanded offs.*2 c →
  in_bounds grid c = true ∧ c ∉ expanded.
Proof.
  intros Hwf Hoffs Hex Hvalid.
  unfold valid_center in Hvalid.
  rewrite is_valid_position_true in Hvalid.
  destruct (Hvalid _ (center_offset w offs Hwf Hoffs))
    as (cx & cy & Hx & Hy & Hb & Hfree).
  rewrite np_add_origin in Hx, Hy by done.
  destruct Hex as [H1 H2].
  destruct (py_int_of_Z _ H1) as [_ Hx'], (py_int_of_Z _ H2) as [_ Hy'].
  cbn [np_array fst snd] in Hx, Hy.
  replace cx with c.1 in * by congruence.
  replace cy with c.2 in * by congruence.
  by destruct c.
Qed.

(** X7: on a grid whose sides binary64 holds exactly, every cell of a path
    that [a_star] returns, the first one apart, is a cell of the grid that
    lies farther than [safety_margin] cells, in one coordinate at least,
    from every obstacle that blocks the active kind.  The first cell, where
    the body stands, is not looked at. *)
Theorem path_keeps_margin {cost : Type} `{CostOps cost} (fuel : nat)
    (w : world) (start goal : cell) (obs : gmap cell obstacle_type)
    (grid : cell) (path : list point) :
  well_formed w →
  grid.1 ≤ 2 ^ 53 → grid.2 ≤ 2 ^ 53 →
  (a_star fuel w start goal obs grid).2 = Ok path →
  ∃ cells,
    path = map np_array cells
    ∧ ∀ i c, cells !! S i = Some c →
        in_bounds grid c = true
        ∧ ∀ o, is_blocked obs (current_shape_type w) o = true →
               safety_margin w < Z.abs (c.1 - o.1)
               ∨ safety_margin w < Z.abs (c.2 - o.2).
Proof.
  intros Hwf Hg1 Hg2 Hrun.
  destruct (well_formed_center w Hwf) as (pc & _ & _ & Hin & _).
  destruct (offsets_of_total (initial_positions w) (center_id w)
              (initial_positions w)) as [offs Hoffs]; [done|done|].
  destruct (a_star_sound fuel w start goal obs grid offs path Hoffs Hrun)
    as (cells & -> & Hcases).
  exists cells. split; [done|]. intros i c Hc.
  destruct Hcases as [[-> _]|[_ (_ & _ & Hmoves)]]; [done|].
  destruct (lookup_lt_is_Some_2 cells i) as [a Ha].
  { apply lookup_lt_Some in Hc. lia. }
  destruct (Hmoves i a c Ha Hc) as (_ & Hb & Hvalid).
  destruct (valid_center_clear w offs grid
              (inflate ∅ obs (current_shape_type w) (safety_margin w) grid)
              c Hwf Hoffs) as [_ Hfree];
    [by eapply in_bounds_exact|done|].
  split; [done|]. intros o Ho.
  destruct (Z_lt_le_dec (safety_margin w) (Z.abs (c.1 - o.1))) as [|Hx];
    [by left|].
  destruct (Z_lt_le_dec (safety_margin w) (Z.abs (c.2 - o.2))) as [|Hy];
    [by right|].
  destruct Hfree. apply elem_of_inflate. split; [done|]. exists o.
  split_and!; try done.
  unfold is_blocked in Ho. destruct (obs !! o); [eauto|].
  by destruct (current_shape_type w).
Qed.

Lemma path_keeps_margin_witness :
  ∃ cells,
    [np_array (1, 1); np_array (1, 2); np_array (2, 3); np_array (3, 3)]
    = map np_array cells
    ∧ ∀ i c, cells !! S i = Some c →
        in_bounds (6, 6) c = true
        ∧ ∀ o, is_blocked {[ (5, 0) := HighWall ]}
                 (current_shape_type initial_world) o = true →
               safety_margin initial_world < Z.abs (c.1 - o.1)
               ∨ safety_margin initial_world < Z.abs (c.2 - o.2).
Proof.
  apply (path_keeps_margin (H := fixed_cost) 100 initial_world (1, 1) (3, 3)
           {[ (5, 0) := HighWall ]} (6, 6)).
  - apply initial_world_well_formed.
  - simpl. lia.
  - simpl. lia.
  - vm_compute. reflexivity.
Defined.

(** ** From the click to the goal *)

Section Journey.

Context {cost : Type} `{CostOps cost}.

(** X8: in a well-formed world on a grid whose sides binary64 holds
    exactly, with the center on a cell and no obstacle that asks for another
    kind, a click of the right button for which [on_click] prints nothing is
    followed, after as many frames as the new path has cells, by a body whose
    center stands on the clicked cell, in the same kind; the frames after
    that move nothing. *)
Theorem click_then_follow (fuel : nat) (event : mouse_event) (w w' : world)
    (start goal : cell) :
  well_formed w → quiet w →
  (grid_size w).1 ≤ 2 ^ 53 → (grid_size w).2 ≤ 2 ^ 53 →
  center_cell w = Some start → exact_cell start →
  inaxes event = true → button event = 3 →
  F64.py_int (xdata event) = Some goal.1 →
  F64.py_int (ydata event) = Some goal.2 →
  on_click fuel event w = Ok (w', []) →
  ∃ w'', ticks (length (path w')) w' = Some w''
         ∧ center_cell w'' = Some goal
         ∧ current_shape_type w'' = current_shape_type w
         ∧ ∀ n, ticks n w'' = Some w''.
Proof.
  intros Hwf Hq Hg1 Hg2 Hstart Hex Hin Hbutton Hx Hy Hclick.
  unfold on_click in Hclick.
  rewrite Hin, Hx, Hy in Hclick. cbn [negb] in Hclick. cbn zeta in Hclick.
  rewrite decide_True in Hclick by done.
  replace (goal.1, goal.2) with goal in Hclick by by destruct goal.
  destruct (on_click_plan_keeps _ _ _ _ _ Hclick)
    as (Hp & Hi & Hc & Hn & Hk & Ho & _).
  destruct (on_click_plan_path _ _ _ _ _ Hclick)
    as (start' & Hstart' & Hrun & [(_ & [=] & _)|(Hne & _ & Hidx)]).
  replace start' with start in * by congruence.
  destruct (well_formed_center w Hwf) as (pc & _ & _ & Hcin & _).
  destruct (offsets_of_total (initial_positions w) (center_id w)
              (initial_positions w)) as [offs Hoffs]; [done|done|].
  destruct (a_star_sound fuel w start goal (obstacles w) (grid_size w) offs
              (path w') Hoffs Hrun) as (cells & Hpath & Hcases).
  destruct Hcases as [[-> _]|[_ Hleads]]; [done|].
  assert (Hexact : Forall exact_cell cells) by by eapply leads_exact.
  assert (Hwf' : well_formed w').
  { unfold well_formed. by rewrite Hp, Hi, Hc, Hn. }
  assert (Hq' : quiet w').
  { intros n. specialize (Hq n). unfold required_kind in *.
    by rewrite Ho, Hk. }
  destruct cells as [|c0 cells0] eqn:Hcells; [done|]. rewrite <- Hcells in *.
  assert (Hlen : length cells = S (length cells0)) by by rewrite Hcells.
  destruct (ticks_quiet cells (length cells0) w')
    as (w'' & Ht & Hc'' & Hi'' & Hp'' & Hk''); try done; [lia|].
  exists w''. rewrite Hpath, length_map, Hlen. split_and!; try done.
  - rewrite Hc''. by destruct Hleads as (_ & -> & _).
  - congruence.
  - intros n. apply ticks_rest. rewrite Hp'', Hpath, length_map. lia.
Qed.

End Journey.

Lemma click_then_follow_witness :
  ∃ w'', ticks (length (path clicked_world)) clicked_world = Some w''
         ∧ center_cell w'' = Some (3, 3)
         ∧ current_shape_type w'' = current_shape_type initial_world
         ∧ ∀ n, ticks n w'' = Some w''.
Proof.
  apply (click_then_follow (H := f64_cost) 100 (right_click 3 3)
           initial_world clicked_world (1, 1) (3, 3)).
  - apply initial_world_well_formed.
  - intros n. unfold required_kind.
    change (obstacles initial_world) with (∅ : gmap cell obstacle_type).
    by rewrite lookup_empty.
  - simpl. lia.
  - simpl. lia.
  - vm_compute. reflexivity.
  - split; unfold exact_int; simpl; lia.
  - reflexivity.
  - reflexivity.
  - vm_compute. reflexivity.
  - vm_compute. reflexivity.
  - vm_compute. reflexivity.
Defined.

(** ** Obstacles under the mouse *)

Lemma set_obstacles_twice (w : world) (o1 o2 : gmap cell obstacle_type) :
  set_obstacles (set_obstacles w o1) o2 = set_obstacles w o2.
Proof. done. Qed.

Lemma set_obstacles_same (w : world) : set_obstacles w (obstacles w) = w.
Proof. by destruct w. Qed.

Section Toggle.

Context {cost : Type} `{CostOps cost}.

Lemma on_click_toggle (fuel : nat) (event : mouse_event) (w : world)
    (c : cell) :
  inaxes event = true →
  button event = 2 ∨ (button event = 1 ∧ shift event = true) →
  F64.py_int (xdata event) = Some c.1 →
  F64.py_int (ydata event) = Some c.2 →
  on_click fuel event w = Ok (toggle_obstacle c w, []).
Proof.
  intros Hin Hb Hx Hy. unfold on_click. rewrite Hin, Hx, Hy.
  cbn [negb]. cbn zeta.
  rewrite decide_False by (intros H3; rewrite H3 in Hb; by destruct Hb as [|[]]).
  rewrite decide_True by done. by destruct c.
Qed.

(** X9: a click of the middle button, or of the left one with shift,
    changes the obstacle field at the clicked cell and nowhere else, and
    leaves the body, the path, the cursor and the inflated set as they were:
    neither the path nor the margin follows until the next search.  A second
    click of the same kind on the same cell gives back the very same globals
    when the cell was free, and leaves on it an obstacle of the selected
    class, not of the class it had, when the cell was taken. *)
Theorem obstacle_click_twice (fuel : nat) (event : mouse_event) (w : world)
    (c : cell) :
  inaxes event = true →
  button event = 2 ∨ (button event = 1 ∧ shift event = true) →
  F64.py_int (xdata event) = Some c.1 →
  F64.py_int (ydata event) = Some c.2 →
  ∃ w1 w2,
    on_click fuel event w = Ok (w1, [])
    ∧ on_click fuel event w1 = Ok (w2, [])
    ∧ obstacles w1 !! c
      = match obstacles w !! c with
        | Some _ => None
        | None => Some (current_obstacle_type w)
        end
    ∧ (∀ n, n ≠ c → obstacles w1 !! n = obstacles w !! n)
    ∧ (positions w1 = positions w ∧ path w1 = path w
       ∧ step_index w1 = step_index w
       ∧ current_shape_type w1 = current_shape_type w
       ∧ expanded_obstacles w1 = expanded_obstacles w)
    ∧ (obstacles w !! c = None → w2 = w)
    ∧ (is_Some (obstacles w !! c) →
       obstacles w2 = <[c := current_obstacle_type w]> (obstacles w)).
Proof.
  intros Hin Hb Hx Hy.
  exists (toggle_obstacle c w), (toggle_obstacle c (toggle_obstacle c w)).
  split; [by apply on_click_toggle|]. split; [by apply on_click_toggle|].
  destruct (toggle_obstacle_keeps c w)
    as (Hp & _ & _ & _ & Hk & Hpath & Hi & _ & _ & He & _).
  destruct (obstacles w !! c) as [t|] eqn:Hc.
  - assert (H1 : toggle_obstacle c w
                 = set_obstacles w (delete c (obstacles w))).
    { unfold toggle_obstacle. by rewrite Hc. }
    split_and!; try done.
    + rewrite H1. apply lookup_delete_eq.
    + intros n Hn. rewrite H1. by apply lookup_delete_ne.
    + intros _. rewrite H1. unfold toggle_obstacle.
      cbn [set_obstacles obstacles current_obstacle_type].
      rewrite lookup_delete_eq. cbn [obstacles].
      by rewrite insert_delete_eq.
  - assert (H1 : toggle_obstacle c w
                 = set_obstacles w
                     (<[c := current_obstacle_type w]> (obstacles w))).
    { unfold toggle_obstacle. by rewrite Hc. }
    split_and!; try done.
    + rewrite H1. apply lookup_insert_eq.
    + intros n Hn. rewrite H1. by apply lookup_insert_ne.
    + intros _. rewrite H1. unfold toggle_obstacle.
      cbn [set_obstacles obstacles current_obstacle_type].
      rewrite lookup_insert_eq. rewrite set_obstacles_twice.
      rewrite delete_insert_id by done. apply set_obstacles_same.
Qed.

End Toggle.

Lemma obstacle_click_twice_witness :
  ∃ w1 w2,
    on_click (H := f64_cost) 0
      {| inaxes := true; xdata := F64.of_Z 6; ydata := F64.of_Z 5;
         button := 1; shift := true |} tunnel_world = Ok (w1, [])
    ∧ on_click (H := f64_cost) 0
        {| inaxes := true; xdata := F64.of_Z 6; ydata := F64.of_Z 5;
           button := 1; shift := true |} w1 = Ok (w2, [])
    ∧ obstacles w1 !! ((6, 5) : cell)
      = match obstacles tunnel_world !! ((6, 5) : cell) with
        | Some _ => None
        | None => Some (current_obstacle_type tunnel_world)
        end
    ∧ (∀ n, n ≠ (6, 5) → obstacles w1 !! n = obstacles tunnel_world !! n)
    ∧ (positions w1 = positions tunnel_world
       ∧ path w1 = path tunnel_world
       ∧ step_index w1 = step_index tunnel_world
       ∧ current_shape_type w1 = current_shape_type tunnel_world
       ∧ expanded_obstacles w1 = expanded_obstacles tunnel_world)
    ∧ (obstacles tunnel_world !! ((6, 5) : cell) = None → w2 = tunnel_world)
    ∧ (is_Some (obstacles tunnel_world !! ((6, 5) : cell)) →
       obstacles w2
       = <[(6, 5) := current_obstacle_type tunnel_world]>
           (obstacles tunnel_world)).
Proof.
  apply (obstacle_click_twice (H := f64_cost) 0
           {| inaxes := true; xdata := F64.of_Z 6; ydata := F64.of_Z 5;
              button := 1; shift := true |} tunnel_world (6, 5)).
  - reflexivity.
  - right. split; reflexivity.
  - vm_compute. reflexivity.
  - vm_compute. reflexivity.
Defined.

(** ** Fewer obstacles *)

Lemma is_blocked_mono (obs obs' : gmap cell obstacle_type) (k : shape_type)
    (o : cell) :
  obs ⊆ obs' → is_blocked obs k o = true → is_blocked obs' k o = true.
Proof.
  intros Hsub. unfold is_blocked.
  destruct (obs !! o) as [t|] eqn:Ho.
  - by rewrite (lookup_weaken _ _ _ _ Ho Hsub).
  - by destruct k.
Qed.

Lemma inflate_mono (old old' : gset cell) (obs obs' : gmap cell obstacle_type)
    (k : shape_type) (margin margin' : Z) (grid : cell) :
  obs ⊆ obs' → margin ≤ margin' →
  inflate old obs k margin grid ⊆ inflate old' obs' k margin' grid.
Proof.
  intros Hsub Hm n. rewrite !elem_of_inflate.
  intros (Hb & o & [t Ho] & Hblocked & Hx & Hy). split; [done|].
  exists o. split_and!; try lia.
  - exists t. by eapply lookup_weaken.
  - by eapply is_blocked_mono.
Qed.

Lemma valid_center_anti (grid : cell) (E E' : gset cell)
    (offsets : list point) (c : cell) :
  E ⊆ E' → valid_center grid E' offsets c → valid_center grid E offsets c.
Proof.
  intros Hsub. unfold valid_center. rewrite !is_valid_position_true.
  intros Hall offset Ho.
  destruct (Hall offset Ho) as (cx & cy & ? & ? & ? & Hfree).
  exists cx, cy. split_and!; try done. set_solver.
Qed.

Lemma reachable_anti (grid : cell) (E E' : gset cell)
    (offsets : list point) (start c : cell) :
  E ⊆ E' → reachable grid E' offsets start c → reachable grid E offsets start c.
Proof.
  intros Hsub. unfold reachable. apply rtc_subrel.
  intros a b (Hking & Hb & Hvalid). split_and!; try done.
  by eapply valid_center_anti.
Qed.

(** X10: taking obstacles away never loses a goal.  When [a_star] returns
    a path that is not empty in an obstacle field, it returns no empty path,
    from the same start to the same goal with the same body, in a field that
    holds some of these obstacles only. *)
Theorem fewer_obstacles_keep_goal {cost : Type} `{CostOps cost}
    (fuel fuel' : nat) (w : world) (start goal : cell)
    (obs obs' : gmap cell obstacle_type) (grid : cell)
    (path path' : list point) :
  obs ⊆ obs' →
  (a_star fuel' w start goal obs' grid).2 = Ok path' →
  path' ≠ [] →
  (a_star fuel w start goal obs grid).2 = Ok path →
  path ≠ [].
Proof.
  intros Hsub Hrun' Hne' Hrun.
  destruct (relative_offsets (initial_positions w) (center_id w))
    as [offs|] eqn:Hoffs.
  2:{ by rewrite a_star_raises_without_offsets in Hrun. }
  destruct (a_star_sound _ _ _ _ _ _ _ _ Hoffs Hrun')
    as (cells' & -> & [[-> _]|[Hreach' _]]); [done|].
  destruct (a_star_sound _ _ _ _ _ _ _ _ Hoffs Hrun)
    as (cells & -> & [[-> Hno]|[_ (Hhead & _)]]).
  - destruct Hno. eapply reachable_anti; [|exact Hreach'].
    by apply inflate_mono.
  - by destruct cells.
Qed.

Lemma fewer_obstacles_keep_goal_witness :
  [np_array (1, 1); np_array (2, 2); np_array (3, 3)] ≠ [].
Proof.
  apply (fewer_obstacles_keep_goal (H := fixed_cost) 100 100 initial_world
           (1, 1) (3, 3) ∅ {[ (5, 0) := HighWall ]} (6, 6)
           [np_array (1, 1); np_array (2, 2); np_array (3, 3)]
           [np_array (1, 1); np_array (1, 2); np_array (2, 3);
            np_array (3, 3)]).
  - apply map_empty_subseteq.
  - vm_compute. reflexivity.
  - discriminate.
  - vm_compute. reflexivity.
Defined.

(** ** The rectangles of [draw_obstacles] *)

Lemma first_obstacle_Some (obs : gmap cell obstacle_type)
    (cells : list cell) (t : obstacle_type) :
  first_obstacle obs cells = Some t → ∃ o, o ∈ cells ∧ obs !! o = Some t.
Proof.
  induction cells as [|n rest IH]; simpl; [done|].
  destruct (obs !! n) as [t'|] eqn:Hn.
  - intros [= <-]. exists n. split; [by left|done].
  - intros Hrest. destruct (IH Hrest) as (o & Ho & Ht).
    exists o. split; [by right|done].
Qed.

Lemma first_obstacle_None (obs : gmap cell obstacle_type)
    (cells : list cell) :
  first_obstacle obs cells = None → ∀ o, o ∈ cells → obs !! o = None.
Proof.
  induction cells as [|n rest IH]; simpl.
  - intros _ o Ho. by apply elem_of_nil in Ho.
  - destruct (obs !! n) as [t'|] eqn:Hn; [done|].
    intros Hrest o [->|Ho]%elem_of_cons; [done|by apply IH].
Qed.

(** X11: right after a search, every rectangle that [draw_obstacles] adds
    has the colour of an obstacle: a filled one that of the obstacle on its
    cell, a faint one, on a free cell of the margin, that of an obstacle of
    the box around the cell, never the fallback colour; and a dashed outline
    goes with a tunnel wall or a low wall of that box. *)
Theorem draw_after_plan {cost : Type} `{CostOps cost} (fuel : nat)
    (w w' : world) (c : cell) (printed : list message) :
  on_click_plan fuel w c = Ok (w', printed) →
  ∀ p, p ∈ draw_obstacles w' →
    match p with
    | Filled n col =>
        ∃ t, obstacles w' !! n = Some t ∧ col = obstacle_types t
    | Faint n col =>
        obstacles w' !! n = None
        ∧ ∃ o t, o ∈ box (safety_margin w') n
                 ∧ obstacles w' !! o = Some t ∧ col = obstacle_types t
    | Dashed n edge =>
        obstacles w' !! n = None
        ∧ ∃ o, o ∈ box (safety_margin w') n
               ∧ ((obstacles w' !! o = Some TunnelWall ∧ edge = cyan)
                  ∨ (obstacles w' !! o = Some LowWall ∧ edge = orange))
    end.
Proof.
  intros Hplan p Hp.
  destruct (on_click_plan_keeps _ _ _ _ _ Hplan)
    as (_ & _ & _ & _ & Hk & Ho & Hm & Hg & He).
  unfold draw_obstacles in Hp. apply elem_of_app in Hp as [Hp|Hp].
  - apply list_elem_of_fmap in Hp as ([n t] & -> & Hn).
    apply elem_of_map_to_list in Hn. eauto.
  - apply list_elem_of_bind in Hp as (n & Hp & Hn).
    apply elem_of_elements in Hn. rewrite He in Hn.
    apply elem_of_inflate in Hn as (_ & o & [t Hot] & _ & Hx & Hy).
    rewrite <- Ho in Hot.
    assert (Hbox : o ∈ box (safety_margin w') n).
    { apply elem_of_box. rewrite Hm. lia. }
    unfold margin_patches in Hp.
    destruct (obstacles w' !! n) eqn:Hfree;
      [by apply elem_of_nil in Hp|].
    unfold nearest_type in Hp.
    destruct (first_obstacle (obstacles w') (box (safety_margin w') n))
      as [t'|] eqn:Hfirst.
    + destruct (first_obstacle_Some _ _ _ Hfirst) as (o' & Ho' & Ht').
      apply elem_of_cons in Hp as [->|Hp].
      * split; [done|]. exists o', t'. done.
      * destruct t'; try (by apply elem_of_nil in Hp);
          apply list_elem_of_singleton in Hp as ->;
          (split; [done|]); exists o'; (split; [done|]); auto.
    + by rewrite (first_obstacle_None _ _ Hfirst o Hbox) in Hot.
Qed.

Lemma draw_after_plan_witness :
  obstacles planned_world !! ((5, 4) : cell) = None
  ∧ ∃ o t, o ∈ box (safety_margin planned_world) (5, 4)
           ∧ obstacles planned_world !! o = Some t
           ∧ blue = obstacle_types t.
Proof.
  refine (draw_after_plan (H := f64_cost) 100 tunnel_world planned_world
            (3, 3) [] _ (Faint (5, 4) blue) _).
  - vm_compute. reflexivity.
  - apply list_elem_of_In. vm_compute. auto 20.
Defined.

(** ** A path without a loop *)

Lemma np_array_inj (a b : cell) :
  exact_cell a → exact_cell b → np_array a = np_array b → a = b.
Proof.
  intros [Ha1 Ha2] [Hb1 Hb2] Hab. unfold np_array in Hab.
  injection Hab as H1 H2.
  destruct (py_int_of_Z _ Ha1) as [Hx _], (py_int_of_Z _ Hb1) as [Hx' _].
  destruct (py_int_of_Z _ Ha2) as [Hy _], (py_int_of_Z _ Hb2) as [Hy' _].
  rewrite H1 in Hx. rewrite H2 in Hy.
  destruct a, b; simpl in *. f_equal; congruence.
Qed.

Section Simple.

Context {cost : Type} `{CostOps cost} `{!CostLaws cost}.


End Simple.

